(** * Forsa AI: the multilingual mixin of [app/models/base.py]

    A shallow embedding of [MultilingualMixin] (the translatable field
    store) together with the part of the Python object model its three
    methods rely on: attribute lookup by name ([hasattr], [getattr],
    [setattr]), insertion-ordered dictionaries that are mutated in place
    and reached through references, truthiness, the [in] operator and
    exceptions. *)

From Stdlib Require Import ZArith Ascii.
From stdpp Require Import base option strings list gmap fin_maps.

#[local] Set Warnings "-clear-no-such-hyp".

Local Open Scope string_scope.

(** ** Insertion-ordered dictionaries

    A Python [dict] keeps its keys in insertion order; the last-resort
    branch of [get_translation] observes that order, so a dictionary is an
    association list read from the oldest entry to the newest. *)

Abbreviation dict := (list (string * string)).

Module PyDict.

(** [d[k]], [None] standing for [KeyError]. *)
Fixpoint get (k : string) (d : dict) : option string :=
  match d with
  | [] => None
  | (k', v') :: rest => if decide (k = k') then Some v' else get k rest
  end.

(** [k in d]. *)
Definition contains (k : string) (d : dict) : bool :=
  bool_decide (is_Some (get k d)).

(** [d[k] = v]: an existing key keeps its position and takes the new
    value, a new key goes to the end. *)
Fixpoint setitem (k v : string) (d : dict) : dict :=
  match d with
  | [] => [(k, v)]
  | (k', v') :: rest =>
      if decide (k = k') then (k, v) :: rest
      else (k', v') :: setitem k v rest
  end.

(** [list(d.keys())] and [list(d.values())]. *)
Definition keys (d : dict) : list string := d.*1.
Definition values (d : dict) : list string := d.*2.

(** [bool(d)]. *)
Definition nonempty (d : dict) : bool :=
  match d with [] => false | _ :: _ => true end.

(** What the interpreter guarantees of every dictionary. *)
Definition wf (d : dict) : Prop := NoDup (keys d).

End PyDict.

(** ** Values, the entity and the object store *)

Abbreviation loc := positive.

(** The values an attribute of an entity (or an argument of
    [set_translation]) can hold: [None], a [str], an [int], a [bool], a
    [datetime] (as an instant) and a reference to a dictionary. *)
Inductive value : Type :=
  | VNone
  | VStr (s : string)
  | VInt (n : Z)
  | VBool (b : bool)
  | VDateTime (t : Z)
  | VDict (l : loc).

Global Instance value_eq_dec : EqDecision value.
Proof. solve_decision. Defined.

(** [attrs] is the entity ([self]): its data attributes by name, the
    columns of [BaseModel] and the translatable fields of a concrete model.
    (The methods and constants of the class, which [hasattr] finds as
    well, hold values of none of the kinds above and are left out.)  [heap]
    holds the dictionaries; two attributes bound to the same location share
    one dictionary, as two Python names bound to one object do. *)
Record state : Type := State {
  attrs : gmap string value;
  heap : gmap loc dict
}.

(** The dictionary a reference denotes.  A location that was never
    allocated reads as the empty dictionary; [wf_state] below says that the
    entity holds no such reference. *)
Definition deref (s : state) (l : loc) : dict := default [] (heap s !! l).

(** Every reference held by the entity denotes an allocated dictionary, as
    every Python reference does. *)
Definition allocated (s : state) (v : value) : Prop :=
  match v with VDict l => is_Some (heap s !! l) | _ => True end.

Global Instance allocated_dec s v : Decision (allocated s v).
Proof. destruct v; simpl; apply _. Defined.

Definition wf_state (s : state) : Prop :=
  map_Forall (λ _ v, allocated s v) (attrs s).

(** ** Exceptions and the monad of methods *)

(** The three [ValueError]s of the mixin, told apart by their message. *)
Inductive message : Type :=
  | FieldNotFound        (* "Field '...' does not exist ..." *)
  | UnsupportedLanguage  (* "Language '...' not supported. Use: ..." *)
  | InvalidValue.        (* "Translation value must be a string" *)

Inductive exn : Type :=
  | ValueError (m : message)
  | TypeError
  | AttributeError
  | KeyError
  | StopIteration.

Inductive result (A : Type) : Type :=
  | Ok (a : A)
  | Raise (e : exn).
Arguments Ok {A} a.
Arguments Raise {A} e.

(** A method body: from the state before to an outcome and the state
    after.  A raised exception skips the rest of the body and leaves the
    state as it is at the [raise]. *)
Definition M (A : Type) : Type := state → result A * state.

Definition ret {A} (a : A) : M A := λ s, (Ok a, s).

Definition raise {A} (e : exn) : M A := λ s, (Raise e, s).

Definition bind {A B} (m : M A) (k : A → M B) : M B :=
  λ s, match m s with
       | (Ok a, s') => k a s'
       | (Raise e, s') => (Raise e, s')
       end.

Notation "x <- m ;; k" := (bind m (λ x, k))
  (at level 100, m at next level, right associativity,
   format "'[v' x  <-  m  ;;  '/' k ']'").
Notation "m ;;; k" := (bind m (λ _, k))
  (at level 100, right associativity).

(** A body that reads the state and leaves it as it found it, whatever
    its outcome. *)
Definition read_only {A} (m : M A) : Prop := ∀ s, snd (m s) = s.

(** ** The object model the mixin uses *)

(** [hasattr(self, name)]. *)
Definition hasattr (name : string) : M bool :=
  λ s, (Ok (bool_decide (is_Some (attrs s !! name))), s).

(** [getattr(self, name)]. *)
Definition getattr (name : string) : M value :=
  λ s, match attrs s !! name with
       | Some v => (Ok v, s)
       | None => (Raise AttributeError, s)
       end.

(** [setattr(self, name, v)]. *)
Definition setattr (name : string) (v : value) : M unit :=
  λ s, (Ok (), State (<[name := v]> (attrs s)) (heap s)).

(** [{}]: a new, empty dictionary at a location not in use. *)
Definition new_dict : M value :=
  λ s, let l := fresh (dom (heap s)) in
       (Ok (VDict l), State (attrs s) (<[l := []]> (heap s))).

(** [bool(v)], the test behind [not v] and [if v]. *)
Definition truthy (v : value) : M bool :=
  λ s, (Ok match v with
           | VNone => false
           | VStr t => negb (bool_decide (t = ""))
           | VInt n => negb (bool_decide (n = 0%Z))
           | VBool b => b
           | VDateTime _ => true
           | VDict l => PyDict.nonempty (deref s l)
           end, s).

(** [v is None]. *)
Definition is_none (v : value) : bool :=
  match v with VNone => true | _ => false end.

(** [k in t] on strings: [k] occurs in [t]. *)
Definition str_contains (k t : string) : bool :=
  bool_decide (is_Some (String.index 0 k t)).

(** [k in v]. *)
Definition py_contains (k : string) (v : value) : M bool :=
  λ s, match v with
       | VDict l => (Ok (PyDict.contains k (deref s l)), s)
       | VStr t => (Ok (str_contains k t), s)
       | _ => (Raise TypeError, s)
       end.

(** [v[k]]. *)
Definition py_getitem (v : value) (k : string) : M string :=
  λ s, match v with
       | VDict l =>
           match PyDict.get k (deref s l) with
           | Some t => (Ok t, s)
           | None => (Raise KeyError, s)
           end
       | _ => (Raise TypeError, s)
       end.

(** [v[k] = t]: the dictionary is updated in place. *)
Definition py_setitem (v : value) (k t : string) : M unit :=
  λ s, match v with
       | VDict l =>
           (Ok (), State (attrs s)
                         (<[l := PyDict.setitem k t (deref s l)]> (heap s)))
       | _ => (Raise TypeError, s)
       end.

(** [next(iter(v.values()))]. *)
Definition first_value (v : value) : M string :=
  λ s, match v with
       | VDict l =>
           match PyDict.values (deref s l) with
           | t :: _ => (Ok t, s)
           | [] => (Raise StopIteration, s)
           end
       | _ => (Raise AttributeError, s)
       end.

(** [list(v.keys())]. *)
Definition keys_list (v : value) : M (list string) :=
  λ s, match v with
       | VDict l => (Ok (PyDict.keys (deref s l)), s)
       | _ => (Raise AttributeError, s)
       end.

(** ** MultilingualMixin *)

Definition SUPPORTED_LANGUAGES : list string := ["en"; "fa"; "ar"; "tr"].
Definition DEFAULT_LANGUAGE : string := "en".
Definition RTL_LANGUAGES : list string := ["fa"; "ar"].

(** [x in xs] on a list of strings. *)
Definition list_contains (x : string) (xs : list string) : bool :=
  bool_decide (x ∈ xs).

Definition get_translation (field_name lang fallback : string)
  : M (option string) :=
  (* if not hasattr(self, field_name): raise ValueError(...) *)
  has <- hasattr field_name ;;
  if negb has then raise (ValueError FieldNotFound) else
  (* content = getattr(self, field_name) *)
  content <- getattr field_name ;;
  (* if not content: return None *)
  filled <- truthy content ;;
  if negb filled then ret None else
  (* if lang in content: return content[lang] *)
  has_lang <- py_contains lang content ;;
  if has_lang then (t <- py_getitem content lang ;; ret (Some t)) else
  (* if fallback in content: return content[fallback] *)
  has_fallback <- py_contains fallback content ;;
  if has_fallback then (t <- py_getitem content fallback ;; ret (Some t)) else
  (* return next(iter(content.values())) if content else None *)
  filled' <- truthy content ;;
  if filled' then (t <- first_value content ;; ret (Some t)) else ret None.

(** The call with [fallback] left to its default, ['en']. *)
Definition get_translation_default (field_name lang : string)
  : M (option string) :=
  get_translation field_name lang "en".

Definition set_translation (field_name lang : string) (val : value)
  : M unit :=
  (* if not hasattr(self, field_name): raise ValueError(...) *)
  has <- hasattr field_name ;;
  if negb has then raise (ValueError FieldNotFound) else
  (* if lang not in self.SUPPORTED_LANGUAGES: raise ValueError(...) *)
  if negb (list_contains lang SUPPORTED_LANGUAGES)
  then raise (ValueError UnsupportedLanguage) else
  (* if not isinstance(value, str): raise ValueError(...) *)
  match val with
  | VStr text =>
      (* current_content = getattr(self, field_name) *)
      current_content <- getattr field_name ;;
      (* if current_content is None: current_content = {} *)
      current_content <- (if is_none current_content then new_dict
                          else ret current_content) ;;
      (* current_content[lang] = value *)
      py_setitem current_content lang text ;;;
      (* setattr(self, field_name, current_content) *)
      setattr field_name current_content
  | _ => raise (ValueError InvalidValue)
  end.

Definition get_supported_languages (field_name : string)
  : M (list string) :=
  (* if not hasattr(self, field_name): raise ValueError(...) *)
  has <- hasattr field_name ;;
  if negb has then raise (ValueError FieldNotFound) else
  (* content = getattr(self, field_name) *)
  content <- getattr field_name ;;
  (* return list(content.keys()) if content else [] *)
  filled <- truthy content ;;
  if filled then keys_list content else ret [].

(** A static method: no entity, no state, no exception. *)
Definition is_rtl_language (lang : string) : bool :=
  list_contains lang RTL_LANGUAGES.

(** ** Reading the entity *)

(** The mapping an attribute value stands for; [None] reads as no entry. *)
Definition mapping_of (s : state) (v : value) : dict :=
  match v with VDict l => deref s l | _ => [] end.

(** The mapping of a named field. *)
Definition field_mapping (s : state) (name : string) : dict :=
  from_option (mapping_of s) [] (attrs s !! name).

(** A translatable field: an attribute of the annotated type
    [Optional[Dict[str, str]]], that is [None] or a dictionary. *)
Definition translatable (s : state) (name : string) : Prop :=
  attrs s !! name = Some VNone ∨ ∃ l, attrs s !! name = Some (VDict l).

(** What a caller sees when reading an attribute: the scalar itself, or
    the entries of the dictionary it refers to. *)
Inductive view : Type :=
  | Scalar (v : value)
  | Mapping (d : dict).

Definition view_of (s : state) (v : value) : view :=
  match v with VDict l => Mapping (deref s l) | _ => Scalar v end.

Definition read_attr (s : state) (name : string) : option view :=
  view_of s <$> attrs s !! name.

(** What [get_translation] computes from the dictionary of a field. *)
Definition resolve (d : dict) (lang fallback : string) : option string :=
  match PyDict.get lang d with
  | Some t => Some t
  | None =>
      match PyDict.get fallback d with
      | Some t => Some t
      | None => head (PyDict.values d)
      end
  end.

(** ** Callers *)

(** The three operations of the store, as a caller issues them. *)
Inductive op : Type :=
  | OpSet (name lang : string) (val : value)
  | OpGet (name lang fallback : string)
  | OpSupported (name : string).

Definition run_op (o : op) : M unit :=
  match o with
  | OpSet name lang val => set_translation name lang val
  | OpGet name lang fallback =>
      _ <- get_translation name lang fallback ;; ret ()
  | OpSupported name => _ <- get_supported_languages name ;; ret ()
  end.

(** A sequence of operations, each of which has to succeed for the next
    to run. *)
Fixpoint run_ops (os : list op) : M unit :=
  match os with
  | [] => ret ()
  | o :: os' => run_op o ;;; run_ops os'
  end.

(** Two attributes bound to one dictionary object. *)
Definition shares (s : state) (a b : string) : Prop :=
  ∃ l, attrs s !! a = Some (VDict l) ∧ attrs s !! b = Some (VDict l).

(** No two attributes of the entity are bound to one dictionary. *)
Definition unshared (s : state) : Prop :=
  ∀ a b, a ≠ b → ¬ shares s a b.

(** An entity as [BaseModel] declares it, with two translatable fields as
    in the unit tests, before anything is written. *)
Definition new_entity : state :=
  State (list_to_map
           [("id", VStr "6fa459ea-ee8a-3ca4-894e-db77e160355e");
            ("created_at", VDateTime 1735732800);
            ("updated_at", VDateTime 1735732800);
            ("is_deleted", VBool false);
            ("deleted_at", VNone);
            ("title_i18n", VNone);
            ("description_i18n", VNone)])
        ∅.

(** The entity after [set_translation('title_i18n', 'en', 'Software
    Engineer')], and after a Persian title is added to it. *)
Definition entity_en : state :=
  snd (set_translation "title_i18n" "en" (VStr "Software Engineer")
         new_entity).

Definition entity_en_fa : state :=
  snd (set_translation "title_i18n" "fa" (VStr "Mohandes") entity_en).

(** An entity whose two translatable fields were bound to one dictionary,
    as after [e.title_i18n = e.description_i18n = {}]. *)
Definition entity_shared : state :=
  State (<["title_i18n" := VDict 1%positive]>
           (<["description_i18n" := VDict 1%positive]> (attrs new_entity)))
        {[ 1%positive := [] ]}.

(** ** SoftDeleteMixin *)

(** [soft_delete], with [now] the instant [datetime.utcnow()] returns at
    the call. *)
Definition soft_delete (now : Z) : M unit :=
  (* self.is_deleted = True *)
  setattr "is_deleted" (VBool true) ;;;
  (* self.deleted_at = datetime.utcnow() *)
  setattr "deleted_at" (VDateTime now).

Definition restore : M unit :=
  (* self.is_deleted = False *)
  setattr "is_deleted" (VBool false) ;;;
  (* self.deleted_at = None *)
  setattr "deleted_at" VNone.

Definition is_active : M bool :=
  (* return not self.is_deleted *)
  deleted <- getattr "is_deleted" ;;
  flag <- truthy deleted ;;
  ret (negb flag).

(** ** BaseModel *)

(** Dictionaries with values of any kind, as [to_dict] builds them. *)
Abbreviation objdict := (list (string * value)).

(** [d[k] = v] on such a dictionary. *)
Fixpoint obj_setitem (k : string) (v : value) (d : objdict) : objdict :=
  match d with
  | [] => [(k, v)]
  | (k', v') :: rest =>
      if decide (k = k') then (k, v) :: rest
      else (k', v') :: obj_setitem k v rest
  end.

(** [d[k]], [None] standing for [KeyError]. *)
Fixpoint obj_get (k : string) (d : objdict) : option value :=
  match d with
  | [] => None
  | (k', v') :: rest => if decide (k = k') then Some v' else obj_get k rest
  end.

(** [{name: getattr(self, name) for name in columns}], continued from the
    entries [acc] built so far. *)
Fixpoint comprehension (columns : list string) (acc : objdict) : M objdict :=
  match columns with
  | [] => ret acc
  | name :: columns' =>
      v <- getattr name ;;
      comprehension columns' (obj_setitem name v acc)
  end.

(** [to_dict], with [columns] the names of [self.__table__.columns], which
    a concrete model declares. *)
Definition to_dict (columns : list string) (include_deleted : bool)
  : M objdict :=
  (* if not include_deleted and self.is_deleted: return {} *)
  hidden <- (if negb include_deleted
             then (deleted <- getattr "is_deleted" ;; truthy deleted)
             else ret false) ;;
  if hidden then ret [] else
  (* return {column.name: getattr(self, column.name) for column in ...} *)
  comprehension columns [].

(** Strings are read as ASCII text in what follows: one character is one
    code point, and [str.lower], [str.strip] and the class [[A-Z]] act on
    it as they do on ASCII. *)
Fixpoint is_ascii (s : string) : Prop :=
  match s with
  | EmptyString => True
  | String c rest => (Ascii.N_of_ascii c < 128)%N ∧ is_ascii rest
  end.

(** The character class [[A-Z]]. *)
Definition is_upper (c : Ascii.ascii) : bool :=
  (65 <=? Ascii.N_of_ascii c)%N && (Ascii.N_of_ascii c <=? 90)%N.

(** [str.lower] on one character and on a string. *)
Definition ascii_lower (c : Ascii.ascii) : Ascii.ascii :=
  if is_upper c then Ascii.ascii_of_N (Ascii.N_of_ascii c + 32) else c.

Fixpoint str_lower (s : string) : string :=
  match s with
  | EmptyString => EmptyString
  | String c rest => String (ascii_lower c) (str_lower rest)
  end.

(** [re.sub(r'(?<!^)(?=[A-Z])', '_', name)]: an underscore goes in front of
    every capital that is not the first character.  [underscore_capitals]
    is the substitution past the first character. *)
Fixpoint underscore_capitals (s : string) : string :=
  match s with
  | EmptyString => EmptyString
  | String c rest =>
      if is_upper c then String "_"%char (String c (underscore_capitals rest))
      else String c (underscore_capitals rest)
  end.

Definition camel_sub (name : string) : string :=
  match name with
  | EmptyString => EmptyString
  | String c rest => String c (underscore_capitals rest)
  end.

(** [__tablename__], with [name] the [cls.__name__] of the model. *)
Definition __tablename__ (name : string) : string :=
  str_lower (camel_sub name).

(** The string without its underscores. *)
Fixpoint drop_underscores (s : string) : string :=
  match s with
  | EmptyString => EmptyString
  | String c rest =>
      if decide (c = "_"%char) then drop_underscores rest
      else String c (drop_underscores rest)
  end.

(** The number of capitals of a string. *)
Fixpoint count_upper (s : string) : nat :=
  match s with
  | EmptyString => 0
  | String c rest => (if is_upper c then 1 else 0) + count_upper rest
  end.

(** ** Settings ([app/config.py]) *)

(** [str.isspace] on an ASCII character: tab to carriage return, the four
    separators and the space. *)
Definition is_space (c : Ascii.ascii) : bool :=
  let n := Ascii.N_of_ascii c in
  ((9 <=? n)%N && (n <=? 13)%N) || ((28 <=? n)%N && (n <=? 32)%N).

(** [s.lstrip()], [s.rstrip()] and [s.strip()]. *)
Fixpoint lstrip (s : string) : string :=
  match s with
  | EmptyString => EmptyString
  | String c rest => if is_space c then lstrip rest else s
  end.

Fixpoint rstrip (s : string) : string :=
  match s with
  | EmptyString => EmptyString
  | String c rest =>
      match rstrip rest with
      | EmptyString => if is_space c then EmptyString
                       else String c EmptyString
      | rest' => String c rest'
      end
  end.

Definition strip (s : string) : string := rstrip (lstrip s).

(** [s.split(",")]. *)
Fixpoint split_comma (s : string) : list string :=
  match s with
  | EmptyString => [EmptyString]
  | String c rest =>
      if decide (c = ","%char) then EmptyString :: split_comma rest
      else match split_comma rest with
           | piece :: pieces => String c piece :: pieces
           | [] => [String c EmptyString]
           end
  end.

(** [",".join(pieces)]. *)
Fixpoint join_comma (pieces : list string) : string :=
  match pieces with
  | [] => EmptyString
  | [piece] => piece
  | piece :: pieces' => piece ++ String ","%char (join_comma pieces')
  end.

(** The property [Settings.origins_list], with [ALLOWED_ORIGINS] the
    setting it reads. *)
Definition origins_list (ALLOWED_ORIGINS : string) : list string :=
  (* [origin.strip() for origin in self.ALLOWED_ORIGINS.split(",")] *)
  strip <$> split_comma ALLOWED_ORIGINS.

(** [c in s] for a character. *)
Fixpoint has_char (c : Ascii.ascii) (s : string) : bool :=
  match s with
  | EmptyString => false
  | String c' rest => bool_decide (c = c') || has_char c rest
  end.

(** The default of [ALLOWED_ORIGINS]. *)
Definition DEFAULT_ALLOWED_ORIGINS : string :=
  "http://localhost:3000,http://localhost:8000".

(** ** Callers of the whole entity *)

(** The operations of [BaseModel] a caller issues on one entity. *)
Inductive entity_op : Type :=
  | OpMixin (o : op)
  | OpSoftDelete (now : Z)
  | OpRestore.

Definition run_entity_op (o : entity_op) : M unit :=
  match o with
  | OpMixin o' => run_op o'
  | OpSoftDelete now => soft_delete now
  | OpRestore => restore
  end.

Fixpoint run_entity_ops (os : list entity_op) : M unit :=
  match os with
  | [] => ret ()
  | o :: os' => run_entity_op o ;;; run_entity_ops os'
  end.

(** What the tombstone operations of a sequence leave: [Some true] when
    the last of them is a [soft_delete], [Some false] when it is a
    [restore], [None] when there is none. *)
Fixpoint last_tombstone (os : list entity_op) (acc : option bool)
  : option bool :=
  match os with
  | [] => acc
  | OpSoftDelete _ :: os' => last_tombstone os' (Some true)
  | OpRestore :: os' => last_tombstone os' (Some false)
  | OpMixin _ :: os' => last_tombstone os' acc
  end.

(** The operation writes no translation under the name [name]. *)
Definition leaves_alone (name : string) (o : entity_op) : Prop :=
  match o with
  | OpMixin (OpSet name' _ _) => name' ≠ name
  | _ => True
  end.

(** The tombstone pair agrees with itself: deleted with an instant of
    deletion, or active with none. *)
Definition tombstone_consistent (s : state) : Prop :=
  (attrs s !! "is_deleted" = Some (VBool true) ∧
   ∃ t, attrs s !! "deleted_at" = Some (VDateTime t)) ∨
  (attrs s !! "is_deleted" = Some (VBool false) ∧
   attrs s !! "deleted_at" = Some VNone).

(** The number of commas of a string. *)
Fixpoint count_commas (s : string) : nat :=
  match s with
  | EmptyString => 0
  | String c rest => (if decide (c = ","%char) then 1 else 0)
                     + count_commas rest
  end.

(** What [get_translation] does on an attribute that holds a scalar:
    a falsy one reads as no translation, any other fails where it is used
    as a dictionary. *)
Definition get_translation_scalar (v : value) (lang fallback : string)
  : result (option string) :=
  match v with
  | VStr t =>
      if decide (t = "") then Ok None
      else if str_contains lang t then Raise TypeError
      else if str_contains fallback t then Raise TypeError
      else Raise AttributeError
  | VInt n => if decide (n = 0%Z) then Ok None else Raise TypeError
  | VBool b => if b then Raise TypeError else Ok None
  | VDateTime _ => Raise TypeError
  | VNone | VDict _ => Ok None
  end.

(** The first character of a string, when it has one, is no white space. *)
Definition starts_clean (s : string) : Prop :=
  match s with
  | EmptyString => True
  | String c _ => is_space c = false
  end.

(** * Dictionaries *)

Module PyDictFacts.
Import PyDict.

Lemma get_setitem_eq k v d : get k (setitem k v d) = Some v.
Proof.
  induction d as [|[k' v'] d IH]; simpl.
  - by rewrite decide_True.
  - destruct (decide (k = k')) as [->|Hne]; simpl.
    + by rewrite decide_True.
    + by rewrite decide_False.
Qed.

Lemma get_setitem_ne k k' v d : k ≠ k' → get k' (setitem k v d) = get k' d.
Proof.
  intros Hne. induction d as [|[k0 v0] d IH]; simpl.
  - by rewrite decide_False.
  - destruct (decide (k = k0)) as [->|Hk]; simpl.
    + by rewrite !decide_False.
    + by rewrite IH.
Qed.

Lemma setitem_nonempty k v d : nonempty (setitem k v d) = true.
Proof. destruct d as [|[k' v'] d]; simpl; [done|]. by case_decide. Qed.

Lemma nonempty_true d : nonempty d = true ↔ d ≠ [].
Proof. by destruct d. Qed.

Lemma get_is_Some k d : is_Some (get k d) ↔ k ∈ keys d.
Proof.
  unfold keys. induction d as [|[k' v'] d IH]; simpl.
  - split; [by intros [? ?] | by intros ?%elem_of_nil].
  - rewrite elem_of_cons. case_decide as Hk.
    + split; [intros _; by left | eauto].
    + rewrite IH. split; [by right | by intros [?|?]].
Qed.

Lemma contains_true k d : contains k d = true ↔ k ∈ keys d.
Proof. unfold contains. by rewrite bool_decide_eq_true, get_is_Some. Qed.

Lemma contains_false k d : contains k d = false ↔ k ∉ keys d.
Proof. unfold contains. by rewrite bool_decide_eq_false, get_is_Some. Qed.

Lemma contains_get k d : contains k d = true → ∃ t, get k d = Some t.
Proof. unfold contains. by intros [t Ht]%bool_decide_eq_true; exists t. Qed.

Lemma contains_false_get k d : contains k d = false → get k d = None.
Proof.
  unfold contains. intros Hc%bool_decide_eq_false.
  by apply eq_None_not_Some.
Qed.

Lemma get_None k d : get k d = None ↔ k ∉ keys d.
Proof. by rewrite <-get_is_Some, eq_None_not_Some. Qed.

Lemma get_Some_elem k v d : get k d = Some v → (k, v) ∈ d.
Proof.
  induction d as [|[k' v'] d IH]; simpl; [done|].
  case_decide; [intros [= ->]; subst; left | right; auto].
Qed.

Lemma elem_get_Some k v d : wf d → (k, v) ∈ d → get k d = Some v.
Proof.
  unfold wf, keys. induction d as [|[k' v'] d IH]; simpl.
  - by intros _ ?%elem_of_nil.
  - intros [Hk' Hd]%NoDup_cons [[= -> ->]|Hin]%elem_of_cons.
    + by rewrite decide_True.
    + rewrite decide_False; [auto|].
      intros ->. apply Hk'. by apply (list_elem_of_fmap_2 fst _ (k', v)).
Qed.

(** Assignment keeps the order of the keys: an old key stays where it is,
    a new key is the newest. *)
Lemma keys_setitem k v d :
  keys (setitem k v d) = if contains k d then keys d else (keys d ++ [k])%list.
Proof.
  unfold keys, contains. induction d as [|[k' v'] d IH]; csimpl; [done|].
  case_decide as Hk; csimpl.
  - by subst.
  - rewrite IH. by destruct (bool_decide _).
Qed.

Lemma elem_of_keys_setitem k' k v d :
  k' ∈ keys (setitem k v d) ↔ k' = k ∨ k' ∈ keys d.
Proof.
  rewrite keys_setitem. destruct (contains k d) eqn:Hc.
  - apply contains_true in Hc. naive_solver.
  - rewrite elem_of_app, list_elem_of_singleton. naive_solver.
Qed.

Lemma setitem_wf k v d : wf d → wf (setitem k v d).
Proof.
  unfold wf. rewrite keys_setitem. destruct (contains k d) eqn:Hc; [done|].
  apply contains_false in Hc. intros Hd.
  apply NoDup_app. split_and!; [done| |apply NoDup_singleton].
  intros x Hx ->%list_elem_of_singleton. done.
Qed.

(** The oldest key of a dictionary that has one stays the oldest. *)
Lemma head_keys_setitem k v d :
  d ≠ [] → head (keys (setitem k v d)) = head (keys d).
Proof.
  destruct d as [|[k' v'] d]; [done|]. intros _. simpl. by case_decide; subst.
Qed.

Lemma setitem_idem k v d : setitem k v (setitem k v d) = setitem k v d.
Proof.
  induction d as [|[k' v'] d IH]; simpl.
  - by rewrite decide_True.
  - case_decide; simpl; [by rewrite decide_True|].
    rewrite decide_False by done. by rewrite IH.
Qed.

End PyDictFacts.

(** * The methods, step by step *)

(** ** Bodies that only read *)

Lemma read_only_ret {A} (a : A) : read_only (ret a).
Proof. done. Qed.

Lemma read_only_raise {A} (e : exn) : read_only (raise (A := A) e).
Proof. done. Qed.

Lemma read_only_bind {A B} (m : M A) (k : A → M B) :
  read_only m → (∀ a, read_only (k a)) → read_only (bind m k).
Proof.
  intros Hm Hk s. unfold bind. specialize (Hm s).
  destruct (m s) as [[a|e] s1]; simpl in *; subst; [apply Hk|done].
Qed.

Lemma read_only_if {A} (b : bool) (m1 m2 : M A) :
  read_only m1 → read_only m2 → read_only (if b then m1 else m2).
Proof. by destruct b. Qed.

Lemma read_only_hasattr (name : string) : read_only (hasattr name).
Proof. done. Qed.

Lemma read_only_getattr (name : string) : read_only (getattr name).
Proof. intros s. unfold getattr. by destruct (attrs s !! name). Qed.

Lemma read_only_truthy v : read_only (truthy v).
Proof. done. Qed.

Lemma read_only_py_contains k v : read_only (py_contains k v).
Proof. intros s. by destruct v. Qed.

Lemma read_only_py_getitem v k : read_only (py_getitem v k).
Proof.
  intros s. destruct v; try done. simpl.
  by destruct (PyDict.get k (deref s l)).
Qed.

Lemma read_only_first_value v : read_only (first_value v).
Proof.
  intros s. destruct v; try done. simpl.
  by destruct (PyDict.values (deref s l)).
Qed.

Lemma read_only_keys_list v : read_only (keys_list v).
Proof. intros s. by destruct v. Qed.

Create HintDb read_only.

#[global] Hint Resolve read_only_ret read_only_raise read_only_bind
  read_only_if read_only_hasattr read_only_getattr read_only_truthy
  read_only_py_contains read_only_py_getitem read_only_first_value
  read_only_keys_list : read_only.

Lemma get_translation_read_only (name lang fallback : string) :
  read_only (get_translation name lang fallback).
Proof. unfold get_translation. eauto 30 with read_only. Qed.

Lemma get_supported_languages_read_only (name : string) :
  read_only (get_supported_languages name).
Proof. unfold get_supported_languages. eauto 30 with read_only. Qed.

(** Unfolds a method body down to the state it threads. *)
Ltac unfold_method :=
  cbv beta delta [get_translation set_translation get_supported_languages
                  bind ret raise hasattr getattr setattr new_dict truthy
                  py_contains py_getitem py_setitem first_value keys_list].

(** Runs an unfolded body along the facts [tac] rewrites with. *)
Ltac run_method tac := unfold_method; repeat (progress (tac; simpl)).

Section Execution.

Implicit Types (s : state) (name lang fallback : string) (val : value).

Lemma deref_insert_eq s a l d :
  deref (State a (<[l := d]> (heap s))) l = d.
Proof. unfold deref; simpl. by rewrite lookup_insert_eq. Qed.

Lemma deref_insert_ne s a l l' d :
  l ≠ l' → deref (State a (<[l := d]> (heap s))) l' = deref s l'.
Proof. intros Hne. unfold deref; simpl. by rewrite lookup_insert_ne. Qed.

Lemma fresh_loc_unused s : heap s !! fresh (dom (heap s)) = None.
Proof. apply not_elem_of_dom, is_fresh. Qed.

(** [set_translation] in closed form: which of its exits a call takes, and
    the state it leaves. *)
Lemma set_translation_run name lang val s :
  set_translation name lang val s =
    match attrs s !! name with
    | None => (Raise (ValueError FieldNotFound), s)
    | Some cur =>
        if list_contains lang SUPPORTED_LANGUAGES then
          match val with
          | VStr text =>
              match cur with
              | VNone =>
                  let l := fresh (dom (heap s)) in
                  (Ok (), State (<[name := VDict l]> (attrs s))
                                (<[l := [(lang, text)]]> (heap s)))
              | VDict l =>
                  (Ok (), State (<[name := VDict l]> (attrs s))
                                (<[l := PyDict.setitem lang text (deref s l)]>
                                   (heap s)))
              | _ => (Raise TypeError, s)
              end
          | _ => (Raise (ValueError InvalidValue), s)
          end
        else (Raise (ValueError UnsupportedLanguage), s)
    end.
Proof.
  destruct (attrs s !! name) as [cur|] eqn:Hcur;
    [|by run_method ltac:(rewrite ?Hcur)].
  destruct (list_contains lang SUPPORTED_LANGUAGES) eqn:Hlang;
    [|by run_method ltac:(rewrite ?Hcur, ?Hlang)].
  destruct val; try by run_method ltac:(rewrite ?Hcur, ?Hlang).
  destruct cur; try by run_method ltac:(rewrite ?Hcur, ?Hlang).
  run_method ltac:(rewrite ?Hcur, ?Hlang).
  unfold deref; simpl. rewrite lookup_insert_eq; simpl.
  by rewrite insert_insert_eq.
Qed.

Lemma resolve_nil lang fallback : resolve [] lang fallback = None.
Proof. done. Qed.

Lemma get_translation_run_dict name lang fallback s l :
  attrs s !! name = Some (VDict l) →
  get_translation name lang fallback s
  = (Ok (resolve (deref s l) lang fallback), s).
Proof.
  intros Hl.
  assert (Hfirst : PyDict.nonempty (deref s l) = true →
                   ∃ t, PyDict.values (deref s l) = t :: tail (PyDict.values (deref s l))).
  { destruct (deref s l) as [|[k0 v0] d]; [done|]. by exists v0. }
  unfold resolve.
  destruct (PyDict.nonempty (deref s l)) eqn:Hne.
  2: { run_method ltac:(rewrite ?Hl, ?Hne). by destruct (deref s l). }
  destruct Hfirst as [t0 Ht0]; [done|].
  destruct (PyDict.contains lang (deref s l)) eqn:Hlang.
  { pose proof Hlang as [t Ht]%PyDictFacts.contains_get.
    by run_method ltac:(rewrite ?Hl, ?Hne, ?Hlang, ?Ht). }
  pose proof Hlang as Hget%PyDictFacts.contains_false_get.
  destruct (PyDict.contains fallback (deref s l)) eqn:Hfb.
  { pose proof Hfb as [t Ht]%PyDictFacts.contains_get.
    by run_method ltac:(rewrite ?Hl, ?Hne, ?Hlang, ?Hfb, ?Hget, ?Ht). }
  pose proof Hfb as Hget'%PyDictFacts.contains_false_get.
  run_method ltac:(rewrite ?Hl, ?Hne, ?Hlang, ?Hfb, ?Hget, ?Hget').
  by rewrite Ht0.
Qed.

Lemma get_translation_run_none name lang fallback s :
  attrs s !! name = Some VNone →
  get_translation name lang fallback s = (Ok None, s).
Proof.
  intros Hn. by run_method ltac:(rewrite ?Hn).
Qed.

Lemma get_translation_run name lang fallback s :
  translatable s name →
  get_translation name lang fallback s
  = (Ok (resolve (field_mapping s name) lang fallback), s).
Proof.
  unfold field_mapping. intros [Hn|[l Hl]].
  - rewrite (get_translation_run_none _ _ _ _ Hn). by rewrite Hn.
  - rewrite (get_translation_run_dict _ _ _ _ _ Hl). by rewrite Hl.
Qed.

Lemma get_translation_default_language name lang :
  get_translation_default name lang
  = get_translation name lang DEFAULT_LANGUAGE.
Proof. done. Qed.

Lemma get_translation_missing name lang fallback s :
  attrs s !! name = None →
  get_translation name lang fallback s = (Raise (ValueError FieldNotFound), s).
Proof.
  intros Hn. by run_method ltac:(rewrite ?Hn).
Qed.

Lemma get_supported_languages_run name s :
  get_supported_languages name s =
    match attrs s !! name with
    | None => (Raise (ValueError FieldNotFound), s)
    | Some VNone => (Ok [], s)
    | Some (VDict l) => (Ok (PyDict.keys (deref s l)), s)
    | Some (VStr t) => if decide (t = "") then (Ok [], s)
                       else (Raise AttributeError, s)
    | Some (VInt n) => if decide (n = 0%Z) then (Ok [], s)
                       else (Raise AttributeError, s)
    | Some (VBool b) => if b then (Raise AttributeError, s) else (Ok [], s)
    | Some (VDateTime _) => (Raise AttributeError, s)
    end.
Proof.
  destruct (attrs s !! name) as [cur|] eqn:Hcur;
    [|by run_method ltac:(rewrite ?Hcur)].
  destruct cur as [|t|n|b|t|l]; try by run_method ltac:(rewrite ?Hcur).
  - destruct (decide (t = "")) as [Ht|Ht].
    + pose proof (bool_decide_eq_true_2 _ Ht) as Hb.
      by run_method ltac:(rewrite ?Hcur, ?Hb).
    + pose proof (bool_decide_eq_false_2 _ Ht) as Hb.
      by run_method ltac:(rewrite ?Hcur, ?Hb).
  - destruct (decide (n = 0%Z)) as [Hn|Hn].
    + pose proof (bool_decide_eq_true_2 _ Hn) as Hb.
      by run_method ltac:(rewrite ?Hcur, ?Hb).
    + pose proof (bool_decide_eq_false_2 _ Hn) as Hb.
      by run_method ltac:(rewrite ?Hcur, ?Hb).
  - destruct b; by run_method ltac:(rewrite ?Hcur).
  - destruct (PyDict.nonempty (deref s l)) eqn:Hne;
      run_method ltac:(rewrite ?Hcur, ?Hne); [done|].
    by destruct (deref s l).
Qed.

End Execution.

(** * Properties of the translatable field store *)

Section Claims.

Implicit Types (s : state) (name lang fallback : string) (val : value).

Lemma supported_iff lang :
  list_contains lang SUPPORTED_LANGUAGES = true ↔ lang ∈ SUPPORTED_LANGUAGES.
Proof. unfold list_contains. apply bool_decide_eq_true. Qed.

(** C1. Round trip: on a translatable field, for a supported language [lang]
    and any text, [set_translation] succeeds whatever the field held
    before (nothing, an empty mapping, [lang] already or other languages),
    and [get_translation] of [lang] with fallback [lang] then returns
    exactly that text. *)
Theorem set_get_round_trip s name lang text :
  translatable s name →
  lang ∈ SUPPORTED_LANGUAGES →
  ∃ s', set_translation name lang (VStr text) s = (Ok (), s') ∧
        get_translation name lang lang s' = (Ok (Some text), s').
Proof.
  intros Htr Hlang%supported_iff.
  rewrite set_translation_run, Hlang.
  destruct Htr as [Hn|[l Hl]].
  - rewrite Hn. eexists; split; [done|].
    erewrite get_translation_run_dict; [|apply lookup_insert_eq].
    rewrite deref_insert_eq. unfold resolve; simpl. by rewrite decide_True.
  - rewrite Hl. eexists; split; [done|].
    erewrite get_translation_run_dict; [|apply lookup_insert_eq].
    rewrite deref_insert_eq. unfold resolve.
    by rewrite PyDictFacts.get_setitem_eq.
Qed.

Lemma set_get_round_trip_example :
  ∃ s', set_translation "title_i18n" "fa" (VStr "Software Engineer")
          new_entity = (Ok (), s') ∧
        get_translation "title_i18n" "fa" "fa" s'
        = (Ok (Some "Software Engineer"), s').
Proof.
  apply (set_get_round_trip new_entity "title_i18n" "fa" "Software Engineer").
  - left. reflexivity.
  - unfold SUPPORTED_LANGUAGES. set_solver.
Defined.

(** C2. Order of the fallbacks: on a translatable field, [get_translation]
    never raises; it returns the entry of [lang] when [lang] is a key,
    else the entry of [fallback] when that is a key, else one of the
    values when the mapping has entries, and [None] when the mapping is
    absent or empty. *)
Theorem get_translation_fallback_order s name lang fallback :
  translatable s name →
  ∃ r, get_translation name lang fallback s = (Ok r, s) ∧
       let d := field_mapping s name in
       (lang ∈ PyDict.keys d → is_Some r ∧ r = PyDict.get lang d) ∧
       (lang ∉ PyDict.keys d → fallback ∈ PyDict.keys d →
        is_Some r ∧ r = PyDict.get fallback d) ∧
       (lang ∉ PyDict.keys d → fallback ∉ PyDict.keys d → d ≠ [] →
        ∃ t, r = Some t ∧ t ∈ PyDict.values d) ∧
       (d = [] → r = None).
Proof.
  intros Htr. rewrite (get_translation_run _ _ _ _ Htr).
  eexists; split; [done|]. simpl.
  generalize (field_mapping s name); intros d. unfold resolve.
  split_and!.
  - intros [t Ht]%PyDictFacts.get_is_Some. rewrite Ht. eauto.
  - intros Hl%PyDictFacts.get_None [t Ht]%PyDictFacts.get_is_Some.
    rewrite Hl, Ht. eauto.
  - intros Hl%PyDictFacts.get_None Hf%PyDictFacts.get_None Hd.
    rewrite Hl, Hf. destruct d as [|[k t] d]; [done|].
    exists t. split; [done|]. unfold PyDict.values. csimpl. left.
  - by intros ->.
Qed.

Lemma get_translation_fallback_order_example :
  get_translation "title_i18n" "tr" "en" entity_en
  = (Ok (Some "Software Engineer"), entity_en).
Proof.
  destruct (get_translation_fallback_order entity_en "title_i18n" "tr" "en")
    as (r & Hget & _ & Hfallback & _).
  { right. exists 1%positive. vm_compute. reflexivity. }
  destruct Hfallback as [_ Hr].
  { apply (bool_decide_unpack _). vm_compute. exact I. }
  { apply (bool_decide_unpack _). vm_compute. exact I. }
  rewrite Hget, Hr. vm_compute. reflexivity.
Defined.



(** C8. [get_translation] is a pure read: whatever the field name, the
    languages and the outcome, the state after the call is the state
    before it. *)
Theorem get_translation_pure s name lang fallback :
  snd (get_translation name lang fallback s) = s.
Proof.
  revert s. change (read_only (get_translation name lang fallback)).
  unfold get_translation.
  apply read_only_bind; [apply read_only_hasattr|intros has].
  apply read_only_if; [apply read_only_raise|].
  apply read_only_bind; [apply read_only_getattr|intros content].
  apply read_only_bind; [apply read_only_truthy|intros filled].
  apply read_only_if; [apply read_only_ret|].
  eauto 20 with read_only.
Qed.

(** C9. A failing [set_translation] writes nothing: whenever the call
    raises, the state after it is the state before it. *)
Theorem set_translation_atomic s name lang val e :
  fst (set_translation name lang val s) = Raise e →
  snd (set_translation name lang val s) = s.
Proof.
  rewrite set_translation_run.
  destruct (attrs s !! name) as [cur|]; [|done].
  destruct (list_contains lang SUPPORTED_LANGUAGES); [|done].
  destruct val; try done. by destruct cur.
Qed.

Lemma set_translation_atomic_example :
  snd (set_translation "title_i18n" "de" (VStr "x") entity_en) = entity_en.
Proof.
  apply (set_translation_atomic entity_en "title_i18n" "de" (VStr "x")
           (ValueError UnsupportedLanguage)).
  vm_compute. reflexivity.
Defined.

(** C10. [is_rtl_language] is a total classification of strings: its answer
    is [true] exactly for fa and ar, so [false] for en, for tr and for any
    code outside the supported set; it has no failing outcome. *)
Theorem is_rtl_language_spec :
  (∀ lang, is_rtl_language lang = true ↔ lang = "fa" ∨ lang = "ar") ∧
  is_rtl_language "fa" = true ∧ is_rtl_language "ar" = true ∧
  is_rtl_language "en" = false ∧ is_rtl_language "tr" = false ∧
  (∀ lang, lang ∉ SUPPORTED_LANGUAGES → is_rtl_language lang = false).
Proof.
  assert (∀ lang, is_rtl_language lang = true ↔ lang = "fa" ∨ lang = "ar")
    as Hspec.
  { intros lang. unfold is_rtl_language, list_contains, RTL_LANGUAGES.
    rewrite bool_decide_eq_true. set_solver. }
  split_and!; try done.
  intros lang Hlang. apply not_true_is_false. rewrite Hspec.
  unfold SUPPORTED_LANGUAGES in Hlang. set_solver.
Qed.

Lemma get_supported_languages_pure s name :
  snd (get_supported_languages name s) = s.
Proof. apply get_supported_languages_read_only. Qed.

(** C6. [get_supported_languages] on a translatable field returns exactly
    the language codes that are keys of that field's mapping (each once,
    as a dictionary holds a key once), nothing for a mapping that is
    absent or empty; on a name that is no attribute of the entity it
    raises the field-not-found error. *)
Theorem get_supported_languages_spec s name :
  (attrs s !! name = None →
   get_supported_languages name s = (Raise (ValueError FieldNotFound), s)) ∧
  (translatable s name →
   ∃ ls, get_supported_languages name s = (Ok ls, s) ∧
         let d := field_mapping s name in
         (∀ k, k ∈ ls ↔ PyDict.contains k d = true) ∧
         (PyDict.wf d → NoDup ls) ∧
         (d = [] → ls = [])).
Proof.
  rewrite get_supported_languages_run. unfold field_mapping. split.
  - by intros ->.
  - intros [Hn|[l Hl]].
    + rewrite Hn. exists []. simpl. split_and!; try done.
      intros k. unfold PyDict.contains; simpl.
      split; [by intros ?%elem_of_nil|done].
    + rewrite Hl. eexists; split; [done|]. simpl. split_and!.
      * intros k. by rewrite PyDictFacts.contains_true.
      * done.
      * by intros ->.
Qed.

Lemma get_supported_languages_example :
  ∃ ls, get_supported_languages "title_i18n" entity_en_fa
        = (Ok ls, entity_en_fa) ∧
        "en" ∈ ls ∧ "fa" ∈ ls ∧ ("ar" ∉ ls) ∧ ("tr" ∉ ls) ∧ NoDup ls.
Proof.
  destruct (proj2 (get_supported_languages_spec entity_en_fa "title_i18n"))
    as (ls & Hget & Hkeys & Hnodup & _).
  { right. exists 1%positive. vm_compute. reflexivity. }
  exists ls. split_and!.
  - done.
  - apply Hkeys. vm_compute. reflexivity.
  - apply Hkeys. vm_compute. reflexivity.
  - intros Hin%Hkeys. vm_compute in Hin. discriminate.
  - intros Hin%Hkeys. vm_compute in Hin. discriminate.
  - apply Hnodup. apply (bool_decide_unpack _). vm_compute. exact I.
Defined.

(** ** What a successful [set_translation] leaves behind *)

Lemma set_translation_ok_inv s s' name lang val :
  set_translation name lang val s = (Ok (), s') →
  ∃ text l,
    val = VStr text ∧ lang ∈ SUPPORTED_LANGUAGES ∧
    attrs s' = <[name := VDict l]> (attrs s) ∧
    ((attrs s !! name = Some VNone ∧ heap s !! l = None ∧
      heap s' = <[l := [(lang, text)]]> (heap s)) ∨
     (attrs s !! name = Some (VDict l) ∧
      heap s' = <[l := PyDict.setitem lang text (deref s l)]> (heap s))).
Proof.
  rewrite set_translation_run.
  destruct (attrs s !! name) as [cur|] eqn:Hcur; [|done].
  destruct (list_contains lang SUPPORTED_LANGUAGES) eqn:Hlang; [|done].
  apply supported_iff in Hlang.
  destruct val as [|text| | | |]; try done.
  destruct cur as [| | | | |l]; try done; intros [= <-]; simpl.
  - exists text, (fresh (dom (heap s))). split_and!; try done.
    left. split_and!; try done. apply fresh_loc_unused.
  - exists text, l. split_and!; try done. by right.
Qed.

(** The mapping of any field after a successful [set_translation], on that
    field or on another: unchanged, or the assignment applied to it. *)
Lemma set_translation_mapping s s' g lang val name :
  set_translation g lang val s = (Ok (), s') →
  lang ∈ SUPPORTED_LANGUAGES ∧
  ∃ text, val = VStr text ∧
    (field_mapping s' name = field_mapping s name ∨
     field_mapping s' name = PyDict.setitem lang text (field_mapping s name)).
Proof.
  intros (text & l & -> & Hlang & Hattrs & Hheap)%set_translation_ok_inv.
  split; [done|]. exists text. split; [done|].
  unfold field_mapping. rewrite Hattrs.
  destruct (decide (g = name)) as [->|Hne].
  - rewrite lookup_insert_eq. right. simpl. unfold deref.
    destruct Hheap as [(Hn & Hl & ->)|(Hl & ->)].
    + by rewrite Hn, lookup_insert_eq.
    + by rewrite Hl, lookup_insert_eq.
  - rewrite lookup_insert_ne by done.
    destruct (attrs s !! name) as [[| | | | |l']|]; simpl; try by left.
    unfold deref.
    destruct Hheap as [(Hn & Hl & ->)|(Hl & ->)];
      (destruct (decide (l = l')) as [<-|Hll];
       [rewrite lookup_insert_eq|rewrite lookup_insert_ne by done; by left]).
    + right. by rewrite Hl.
    + by right.
Qed.

Lemma set_translation_mapping_self s s' name lang text :
  set_translation name lang (VStr text) s = (Ok (), s') →
  field_mapping s' name = PyDict.setitem lang text (field_mapping s name).
Proof.
  intros (text' & l & [= <-] & Hlang & Hattrs & Hheap)%set_translation_ok_inv.
  unfold field_mapping. rewrite Hattrs, lookup_insert_eq. simpl. unfold deref.
  destruct Hheap as [(Hn & Hl & ->)|(Hl & ->)].
  - by rewrite Hn, lookup_insert_eq.
  - by rewrite Hl, lookup_insert_eq.
Qed.

(** ** Sequences of operations *)

Lemma run_op_ok_inv o s s' :
  run_op o s = (Ok (), s') →
  s' = s ∨ ∃ g lang val, o = OpSet g lang val ∧
                         set_translation g lang val s = (Ok (), s').
Proof.
  destruct o as [g lang val|g lang fallback|g]; simpl.
  - intros Hset. right. eauto.
  - unfold bind, ret.
    pose proof (get_translation_read_only g lang fallback s) as Hp.
    destruct (get_translation g lang fallback s) as [[r|e] s1]; simpl in *;
      intros [= <-]. by left.
  - unfold bind, ret. pose proof (get_supported_languages_pure s g) as Hp.
    destruct (get_supported_languages g s) as [[r|e] s1]; simpl in *;
      intros [= <-]. by left.
Qed.

Lemma run_ops_cons_ok_inv o os s s' :
  run_ops (o :: os) s = (Ok (), s') →
  ∃ s1, run_op o s = (Ok (), s1) ∧ run_ops os s1 = (Ok (), s').
Proof.
  simpl. unfold bind at 1.
  destruct (run_op o s) as [[[]|e] s1]; [|done]. eauto.
Qed.

(** A property kept by every successful operation is kept by every
    successful sequence. *)
Lemma run_ops_invariant (P : state → Prop) :
  (∀ o s s', P s → run_op o s = (Ok (), s') → P s') →
  ∀ os s s', P s → run_ops os s = (Ok (), s') → P s'.
Proof.
  intros Hstep os. induction os as [|o os IH]; intros s s' HP.
  - by intros [= <-].
  - intros (s1 & Ho & Hos)%run_ops_cons_ok_inv. eauto.
Qed.

Lemma set_translation_ok s name lang text :
  translatable s name → lang ∈ SUPPORTED_LANGUAGES →
  ∃ s', set_translation name lang (VStr text) s = (Ok (), s').
Proof.
  intros Htr Hlang%supported_iff. rewrite set_translation_run, Hlang.
  destruct Htr as [->|[l ->]]; eauto.
Qed.

Lemma set_translation_translatable s s' name lang val :
  set_translation name lang val s = (Ok (), s') → translatable s' name.
Proof.
  intros (text & l & _ & _ & Hattrs & _)%set_translation_ok_inv.
  right. exists l. by rewrite Hattrs, lookup_insert_eq.
Qed.

Lemma run_op_keys_supported name o s s' :
  Forall (.∈ SUPPORTED_LANGUAGES) (PyDict.keys (field_mapping s name)) →
  run_op o s = (Ok (), s') →
  Forall (.∈ SUPPORTED_LANGUAGES) (PyDict.keys (field_mapping s' name)).
Proof.
  intros Hs [->|(g & lang & val & -> & Hset)]%run_op_ok_inv; [done|].
  apply (set_translation_mapping _ _ _ _ _ name) in Hset
    as (Hlang & text & -> & [->| ->]); [done|].
  apply Forall_forall. intros k [->|Hk]%PyDictFacts.elem_of_keys_setitem.
  - done.
  - by eapply Forall_forall in Hs.
Qed.

(** Setting the languages of [ls] one after the other, each to the empty
    text. *)
Lemma populate_keys name ls :
  ∀ s, translatable s name →
       NoDup (PyDict.keys (field_mapping s name) ++ ls)%list →
       Forall (.∈ SUPPORTED_LANGUAGES) ls →
       ∃ s', run_ops ((λ lang, OpSet name lang (VStr "")) <$> ls) s
             = (Ok (), s') ∧
             PyDict.keys (field_mapping s' name)
             = (PyDict.keys (field_mapping s name) ++ ls)%list.
Proof.
  induction ls as [|lang ls IH]; intros s Htr Hnd Hsup.
  - exists s. split; [done|]. by rewrite app_nil_r.
  - apply Forall_cons in Hsup as [Hlang Hsup].
    destruct (set_translation_ok s name lang "" Htr Hlang) as [s1 Hset].
    pose proof (set_translation_mapping_self _ _ _ _ _ Hset) as Hmap.
    assert (lang ∉ PyDict.keys (field_mapping s name)) as Hfresh.
    { apply NoDup_app in Hnd as (_ & Hdisj & _).
      intros Hin. apply (Hdisj _ Hin). left. }
    assert (PyDict.keys (field_mapping s1 name)
            = (PyDict.keys (field_mapping s name) ++ [lang])%list) as Hkeys.
    { rewrite Hmap, PyDictFacts.keys_setitem.
      apply PyDictFacts.contains_false in Hfresh. by rewrite Hfresh. }
    destruct (IH s1) as (s' & Hrun & Hs').
    + by eapply set_translation_translatable.
    + by rewrite Hkeys, <-app_assoc.
    + done.
    + exists s'. split.
      * csimpl. unfold bind at 1. by rewrite Hset.
      * by rewrite Hs', Hkeys, <-app_assoc.
Qed.

(** C4. Keys stay supported: from a field whose mapping is absent or
    empty, after any sequence of successful set, get and
    supported-languages operations (on that field or on others), every key
    of the field's mapping is one of en, fa, ar, tr.  Nothing more is
    required: every duplicate-free list of supported languages, the empty
    one included, is the key list of the field after some such sequence. *)
Theorem supported_keys_invariant :
  (∀ s name os s',
     field_mapping s name = [] →
     run_ops os s = (Ok (), s') →
     ∀ k, k ∈ PyDict.keys (field_mapping s' name) →
          k ∈ SUPPORTED_LANGUAGES) ∧
  (∀ s name ls,
     translatable s name → field_mapping s name = [] →
     NoDup ls → ls ⊆ SUPPORTED_LANGUAGES →
     ∃ os s', run_ops os s = (Ok (), s') ∧
              PyDict.keys (field_mapping s' name) = ls).
Proof.
  split.
  - intros s name os s' Hempty Hrun. apply Forall_forall.
    apply (run_ops_invariant
             (λ s, Forall (.∈ SUPPORTED_LANGUAGES)
                     (PyDict.keys (field_mapping s name))))
      with (os := os) (s := s); [|by rewrite Hempty|done].
    intros o s1 s2. apply run_op_keys_supported.
  - intros s name ls Htr Hempty Hnd Hsub.
    destruct (populate_keys name ls s) as (s' & Hrun & Hkeys).
    + done.
    + by rewrite Hempty.
    + by apply Forall_forall.
    + exists ((λ lang, OpSet name lang (VStr "")) <$> ls), s'.
      split; [done|]. by rewrite Hkeys, Hempty.
Qed.

Lemma supported_keys_invariant_example :
  (∀ k, k ∈ PyDict.keys (field_mapping entity_en_fa "title_i18n") →
        k ∈ SUPPORTED_LANGUAGES) ∧
  (∃ os s', run_ops os new_entity = (Ok (), s') ∧
            PyDict.keys (field_mapping s' "title_i18n") = ["tr"; "ar"]).
Proof.
  split.
  - apply (proj1 supported_keys_invariant new_entity "title_i18n"
             [OpSet "title_i18n" "en" (VStr "Software Engineer");
              OpGet "title_i18n" "tr" "en";
              OpSet "title_i18n" "fa" (VStr "Mohandes");
              OpSupported "title_i18n"]).
    + reflexivity.
    + vm_compute. reflexivity.
  - apply (proj2 supported_keys_invariant new_entity "title_i18n").
    + left. reflexivity.
    + reflexivity.
    + apply (bool_decide_unpack _). vm_compute. exact I.
    + unfold SUPPORTED_LANGUAGES. set_solver.
Defined.

Lemma run_op_first_key name first o s s' :
  (∃ t rest, field_mapping s name = (first, t) :: rest) →
  run_op o s = (Ok (), s') →
  ∃ t rest, field_mapping s' name = (first, t) :: rest.
Proof.
  intros Hs [->|(g & lang & val & -> & Hset)]%run_op_ok_inv; [done|].
  destruct Hs as (t & rest & Hs).
  apply (set_translation_mapping _ _ _ _ _ name) in Hset
    as (_ & text & -> & [->| ->]); [eauto|].
  rewrite Hs. simpl. case_decide; subst; eauto.
Qed.

(** C5. The last resort is the oldest entry: when the mapping of a
    translatable field has entries but none for [lang] nor for [fallback],
    [get_translation] returns the value of the first entry in insertion
    order; and the key of that first entry is the language given to the
    first [set_translation] on the field, whatever successful operations
    followed it. *)
Theorem last_resort_first_inserted :
  (∀ s name lang fallback first t rest,
     translatable s name →
     field_mapping s name = (first, t) :: rest →
     lang ∉ PyDict.keys (field_mapping s name) →
     fallback ∉ PyDict.keys (field_mapping s name) →
     get_translation name lang fallback s = (Ok (Some t), s)) ∧
  (∀ s name first val os s',
     field_mapping s name = [] →
     run_ops (OpSet name first val :: os) s = (Ok (), s') →
     ∃ t rest, field_mapping s' name = (first, t) :: rest).
Proof.
  split.
  - intros s name lang fallback first t rest Htr Hd Hlang Hfb.
    rewrite (get_translation_run _ _ _ _ Htr). unfold resolve.
    apply PyDictFacts.get_None in Hlang, Hfb. rewrite Hlang, Hfb.
    by rewrite Hd.
  - intros s name first val os s' Hempty
      (s1 & Hset & Hrun)%run_ops_cons_ok_inv.
    simpl in Hset.
    apply (run_ops_invariant
             (λ s, ∃ t rest, field_mapping s name = (first, t) :: rest))
      with (os := os) (s := s1); [| |done].
    + intros o s2 s3. apply run_op_first_key.
    + pose proof Hset as (text & _ & -> & _)%set_translation_ok_inv.
      apply set_translation_mapping_self in Hset.
      rewrite Hset, Hempty. simpl. eauto.
Qed.

Lemma last_resort_first_inserted_example :
  let s := snd (run_ops [OpSet "title_i18n" "fa" (VStr "Mohandes");
                         OpSet "title_i18n" "en" (VStr "Engineer")]
                  new_entity) in
  get_translation "title_i18n" "tr" "ar" s = (Ok (Some "Mohandes"), s) ∧
  ∃ t rest, field_mapping s "title_i18n" = ("fa", t) :: rest.
Proof.
  split.
  - apply (proj1 last_resort_first_inserted _ "title_i18n" "tr" "ar" "fa"
             "Mohandes" [("en", "Engineer")]).
    + right. exists 1%positive. vm_compute. reflexivity.
    + vm_compute. reflexivity.
    + apply (bool_decide_unpack _). vm_compute. exact I.
    + apply (bool_decide_unpack _). vm_compute. exact I.
  - apply (proj2 last_resort_first_inserted new_entity "title_i18n" "fa"
             (VStr "Mohandes") [OpSet "title_i18n" "en" (VStr "Engineer")]).
    + reflexivity.
    + vm_compute. reflexivity.
Defined.

Lemma wf_state_lookup s name l :
  wf_state s → attrs s !! name = Some (VDict l) → is_Some (heap s !! l).
Proof. intros Hwf Hl. apply (Hwf name (VDict l) Hl). Qed.

(** [set_translation] keeps every reference of the entity allocated. *)
Lemma set_translation_wf_state s s' name lang val :
  wf_state s → set_translation name lang val s = (Ok (), s') → wf_state s'.
Proof.
  intros Hwf (text & l & -> & _ & Hattrs & Hheap)%set_translation_ok_inv.
  assert (∀ l', is_Some (heap s !! l') → is_Some (heap s' !! l')) as Hmono.
  { intros l' Hl'.
    destruct Hheap as [(_ & _ & ->)|(_ & ->)];
      (destruct (decide (l = l')) as [->|Hne];
       [rewrite lookup_insert_eq; eauto|by rewrite lookup_insert_ne]). }
  unfold wf_state. rewrite Hattrs. apply map_Forall_insert_2.
  - simpl. destruct Hheap as [(_ & _ & ->)|(_ & ->)];
      rewrite lookup_insert_eq; eauto.
  - intros other v Hv. specialize (Hwf other v Hv).
    destruct v; simpl in *; auto.
Qed.

(** A field that is absent gets a dictionary of its own, and a field that
    has one keeps it: no sharing arises from [set_translation]. *)
Lemma set_translation_unshared s s' name lang val :
  wf_state s → unshared s →
  set_translation name lang val s = (Ok (), s') → unshared s'.
Proof.
  intros Hwf Hun (text & l & -> & _ & Hattrs & Hheap)%set_translation_ok_inv.
  destruct Hheap as [(Hn & Hl & _)|(Hname & _)].
  - intros a b Hab (l' & Ha & Hb). rewrite Hattrs in Ha, Hb.
    destruct (decide (name = a)) as [<-|Hna];
      destruct (decide (name = b)) as [<-|Hnb]; try done.
    + rewrite lookup_insert_eq in Ha. rewrite lookup_insert_ne in Hb by done.
      simplify_eq. apply (wf_state_lookup _ _ _ Hwf) in Hb as [d Hd].
      congruence.
    + rewrite lookup_insert_eq in Hb. rewrite lookup_insert_ne in Ha by done.
      simplify_eq. apply (wf_state_lookup _ _ _ Hwf) in Ha as [d Hd].
      congruence.
    + rewrite lookup_insert_ne in Ha, Hb by done.
      apply (Hun a b Hab). by exists l'.
  - rewrite insert_id in Hattrs by done.
    intros a b Hab (l' & Ha & Hb). rewrite Hattrs in Ha, Hb.
    apply (Hun a b Hab). by exists l'.
Qed.

Lemma run_ops_unshared os s s' :
  wf_state s → unshared s → run_ops os s = (Ok (), s') →
  wf_state s' ∧ unshared s'.
Proof.
  intros Hwf Hun.
  apply (run_ops_invariant (λ s, wf_state s ∧ unshared s)); [|done].
  intros o s1 s2 [Hwf1 Hun1]
    [->|(g & lang & val & -> & Hset)]%run_op_ok_inv; [done|].
  split.
  - by eapply set_translation_wf_state.
  - by eapply set_translation_unshared.
Qed.

Lemma new_entity_unshared : wf_state new_entity ∧ unshared new_entity.
Proof.
  split.
  - apply (bool_decide_unpack _). vm_compute. exact I.
  - intros a b _ (l & Ha & _).
    apply elem_of_list_to_map_2 in Ha. set_solver.
Qed.

(** C7. Frame of [set_translation], for attributes that do not share the
    dictionary of the named field: a successful call rebinds no attribute
    but the named one and changes no dictionary but the one the named
    field refers to; so every other attribute that is not bound to that
    same dictionary reads after the call as it did before.  This covers
    every scalar (the id, the two timestamps, the tombstone pair) and every
    other field with a mapping of its own, hence every other attribute of
    an entity in which no dictionary is shared. *)
Theorem set_translation_frame s s' name lang val :
  wf_state s →
  set_translation name lang val s = (Ok (), s') →
  (∀ other, other ≠ name → attrs s' !! other = attrs s !! other) ∧
  (∀ l, is_Some (heap s !! l) → attrs s !! name ≠ Some (VDict l) →
        heap s' !! l = heap s !! l) ∧
  (∀ other, other ≠ name → ¬ shares s name other →
            read_attr s' other = read_attr s other) ∧
  (∀ other v, other ≠ name → attrs s !! other = Some v →
              (∀ l, v ≠ VDict l) → read_attr s' other = Some (Scalar v)) ∧
  (unshared s →
   ∀ other, other ≠ name → read_attr s' other = read_attr s other).
Proof.
  intros Hwf (text & l & -> & Hlang & Hattrs & Hheap)%set_translation_ok_inv.
  assert (∀ other, other ≠ name → attrs s' !! other = attrs s !! other)
    as Hother.
  { intros other Hne. by rewrite Hattrs, lookup_insert_ne. }
  assert (∀ l', is_Some (heap s !! l') → attrs s !! name ≠ Some (VDict l') →
                heap s' !! l' = heap s !! l') as Hobj.
  { intros l' Hl' Hname.
    destruct Hheap as [(Hn & Hl & ->)|(Hl & ->)];
      rewrite lookup_insert_ne; try done.
    - intros ->. rewrite Hl in Hl'. by destruct Hl'.
    - by intros ->. }
  assert (∀ other, other ≠ name → ¬ shares s name other →
                   read_attr s' other = read_attr s other) as Hread.
  { intros other Hne Hshare. unfold read_attr. rewrite (Hother _ Hne).
    destruct (attrs s !! other) as [v|] eqn:Hv; [simpl|done].
    destruct v as [| | | | |l']; try done. simpl. unfold deref.
    rewrite Hobj; [done|by eapply wf_state_lookup|].
    intros Hname. apply Hshare. by exists l'. }
  split_and!; try done.
  - intros other v Hne Hv Hscalar. unfold read_attr.
    rewrite (Hother _ Hne), Hv. simpl.
    destruct v; try done. by edestruct Hscalar.
  - intros Hun other Hne. apply Hread; [done|]. by apply Hun.
Qed.

Lemma set_translation_frame_example :
  read_attr entity_en_fa "id" = read_attr entity_en "id" ∧
  read_attr entity_en_fa "created_at" = read_attr entity_en "created_at" ∧
  read_attr entity_en_fa "updated_at" = read_attr entity_en "updated_at" ∧
  read_attr entity_en_fa "is_deleted" = read_attr entity_en "is_deleted" ∧
  read_attr entity_en_fa "deleted_at" = read_attr entity_en "deleted_at" ∧
  read_attr entity_en_fa "description_i18n"
  = read_attr entity_en "description_i18n".
Proof.
  assert (wf_state entity_en) as Hwf.
  { apply (bool_decide_unpack _). vm_compute. exact I. }
  assert (unshared entity_en) as Hun.
  { apply (run_ops_unshared
             [OpSet "title_i18n" "en" (VStr "Software Engineer")]
             new_entity);
      [apply new_entity_unshared..|]. vm_compute. reflexivity. }
  assert (set_translation "title_i18n" "fa" (VStr "Mohandes") entity_en
          = (Ok (), entity_en_fa)) as Hset.
  { vm_compute. reflexivity. }
  pose proof (set_translation_frame entity_en entity_en_fa "title_i18n" "fa"
                (VStr "Mohandes") Hwf Hset) as (_ & _ & _ & _ & Hframe).
  split_and!; by apply Hframe.
Defined.

(** The frame does not reach a field bound to the same dictionary as the
    named one: the call on the title succeeds, and the description, which
    read as an empty mapping before the call, reads with the new entry
    after it. *)
Lemma set_translation_shared_dictionary :
  let r := set_translation "title_i18n" "en" (VStr "Engineer")
             entity_shared in
  wf_state entity_shared ∧
  fst r = Ok () ∧
  read_attr entity_shared "description_i18n" = Some (Mapping []) ∧
  read_attr (snd r) "description_i18n"
  = Some (Mapping [("en", "Engineer")]).
Proof.
  split_and!.
  - apply (bool_decide_unpack _). vm_compute. exact I.
  - vm_compute. reflexivity.
  - vm_compute. reflexivity.
  - vm_compute. reflexivity.
Qed.

(** ** Writing twice *)

(** Setting the same text twice leaves the state of the first call. *)
Lemma set_translation_idempotent s s1 s2 name lang text :
  set_translation name lang (VStr text) s = (Ok (), s1) →
  set_translation name lang (VStr text) s1 = (Ok (), s2) →
  s2 = s1.
Proof.
  intros H1 H2.
  apply set_translation_ok_inv in H1
    as (? & l & [= <-] & _ & Hattrs & Hheap).
  assert (attrs s1 !! name = Some (VDict l)) as Hl.
  { by rewrite Hattrs, lookup_insert_eq. }
  rewrite set_translation_run, Hl in H2.
  destruct (list_contains lang SUPPORTED_LANGUAGES); [|done].
  injection H2 as <-. destruct s1 as [a1 h1]; simpl in *. f_equal.
  - by apply insert_id.
  - apply insert_id. unfold deref; simpl.
    destruct Hheap as [(_ & _ & ->)|(_ & ->)];
      rewrite lookup_insert_eq; simpl; [by rewrite decide_True|].
    by rewrite PyDictFacts.setitem_idem.
Qed.

(** The later of two texts for one language is the one read back, and
    the languages set in between keep their texts. *)
Lemma set_translation_other_language s s' name lang lang' text :
  lang ≠ lang' →
  set_translation name lang (VStr text) s = (Ok (), s') →
  PyDict.get lang' (field_mapping s' name)
  = PyDict.get lang' (field_mapping s name).
Proof.
  intros Hne Hset. rewrite (set_translation_mapping_self _ _ _ _ _ Hset).
  by apply PyDictFacts.get_setitem_ne.
Qed.

(** Dictionaries stay free of repeated keys. *)
Lemma set_translation_dict_wf s s' g lang val name :
  PyDict.wf (field_mapping s name) →
  set_translation g lang val s = (Ok (), s') →
  PyDict.wf (field_mapping s' name).
Proof.
  intros Hwf Hset.
  apply (set_translation_mapping _ _ _ _ _ name) in Hset
    as (_ & text & -> & [->| ->]); [done|].
  by apply PyDictFacts.setitem_wf.
Qed.

End Claims.

(** * The unit tests of [tests/models/test_base.py], replayed *)

Section UnitTests.

Example test_supported_languages_constant :
  SUPPORTED_LANGUAGES = ["en"; "fa"; "ar"; "tr"]
  ∧ DEFAULT_LANGUAGE = "en" ∧ RTL_LANGUAGES = ["fa"; "ar"].
Proof. done. Qed.

Example test_set_translation_creates_content :
  read_attr entity_en "title_i18n" = Some (Mapping [("en", "Software Engineer")]).
Proof. vm_compute. reflexivity. Qed.

Example test_set_multiple_translations :
  let s := snd (run_ops [OpSet "title_i18n" "en" (VStr "Software Engineer");
                         OpSet "title_i18n" "fa" (VStr "Mohandes");
                         OpSet "title_i18n" "ar" (VStr "Muhandis")] new_entity) in
  read_attr s "title_i18n"
  = Some (Mapping [("en", "Software Engineer"); ("fa", "Mohandes");
                   ("ar", "Muhandis")]).
Proof. vm_compute. reflexivity. Qed.

Example test_get_translation_returns_correct_language :
  fst (get_translation_default "title_i18n" "fa" entity_en_fa)
  = Ok (Some "Mohandes").
Proof. vm_compute. reflexivity. Qed.

Example test_get_translation_fallback_to_default :
  fst (get_translation "title_i18n" "tr" "en" entity_en)
  = Ok (Some "Software Engineer").
Proof. vm_compute. reflexivity. Qed.

Example test_get_translation_returns_none_if_not_found :
  fst (get_translation_default "title_i18n" "en" new_entity) = Ok None.
Proof. vm_compute. reflexivity. Qed.

Example test_set_translation_raises_error_for_invalid_field :
  fst (set_translation "invalid_field" "en" (VStr "Test") new_entity)
  = Raise (ValueError FieldNotFound).
Proof. vm_compute. reflexivity. Qed.

Example test_set_translation_raises_error_for_unsupported_language :
  fst (set_translation "title_i18n" "de" (VStr "Test") new_entity)
  = Raise (ValueError UnsupportedLanguage).
Proof. vm_compute. reflexivity. Qed.

Example test_set_translation_raises_error_for_non_string_value :
  fst (set_translation "title_i18n" "en" (VInt 123) new_entity)
  = Raise (ValueError InvalidValue).
Proof. vm_compute. reflexivity. Qed.

Example test_get_supported_languages_returns_available_languages :
  fst (get_supported_languages "title_i18n" entity_en_fa) = Ok ["en"; "fa"].
Proof. vm_compute. reflexivity. Qed.

Example test_get_supported_languages_empty_for_no_translations :
  fst (get_supported_languages "title_i18n" new_entity) = Ok [].
Proof. vm_compute. reflexivity. Qed.

Example test_is_rtl_language :
  is_rtl_language "fa" = true ∧ is_rtl_language "ar" = true ∧
  is_rtl_language "en" = false ∧ is_rtl_language "tr" = false.
Proof. vm_compute. done. Qed.

(** Attributes that are no translatable fields: they exist, so the call
    gets past the three checks and fails where the dictionary is used. *)
Example set_translation_on_the_id :
  fst (set_translation "id" "en" (VStr "Test") new_entity) = Raise TypeError.
Proof. vm_compute. reflexivity. Qed.

Example get_translation_on_the_id :
  fst (get_translation "id" "en" "en" new_entity) = Raise AttributeError.
Proof. vm_compute. reflexivity. Qed.

End UnitTests.


(** * SoftDeleteMixin *)

Section SoftDelete.

Implicit Types (s : state) (name lang fallback : string) (now : Z).

Lemma soft_delete_run now s :
  soft_delete now s
  = (Ok (), State (<["deleted_at" := VDateTime now]>
                     (<["is_deleted" := VBool true]> (attrs s)))
                  (heap s)).
Proof. done. Qed.

Lemma restore_run s :
  restore s
  = (Ok (), State (<["deleted_at" := VNone]>
                     (<["is_deleted" := VBool false]> (attrs s)))
                  (heap s)).
Proof. done. Qed.

Lemma is_active_run s :
  is_active s =
    match attrs s !! "is_deleted" with
    | Some v => (Ok (negb (from_option id false
                              (match fst (truthy v s) with
                               | Ok b => Some b
                               | Raise _ => None
                               end))), s)
    | None => (Raise AttributeError, s)
    end.
Proof.
  unfold is_active, bind, getattr, truthy, ret.
  by destruct (attrs s !! "is_deleted").
Qed.

Lemma is_active_bool s b :
  attrs s !! "is_deleted" = Some (VBool b) → is_active s = (Ok (negb b), s).
Proof. intros Hb. by rewrite is_active_run, Hb. Qed.

(** A mixin operation that is no [set_translation] under [name] leaves
    the binding of [name] as it is. *)
Lemma run_op_binding name o s s' :
  leaves_alone name (OpMixin o) →
  run_op o s = (Ok (), s') →
  attrs s' !! name = attrs s !! name.
Proof.
  intros Halone [->|(g & lang & val & -> & Hset)]%run_op_ok_inv; [done|].
  apply set_translation_ok_inv in Hset as (? & l & _ & _ & -> & _).
  simpl in Halone. by rewrite lookup_insert_ne.
Qed.

Lemma run_entity_ops_cons_ok_inv o os s s' :
  run_entity_ops (o :: os) s = (Ok (), s') →
  ∃ s1, run_entity_op o s = (Ok (), s1) ∧
        run_entity_ops os s1 = (Ok (), s').
Proof.
  simpl. unfold bind at 1.
  destruct (run_entity_op o s) as [[[]|e] s1]; [|done]. eauto.
Qed.

Lemma run_entity_ops_invariant (P : state → Prop) (Q : entity_op → Prop) :
  (∀ o s s', Q o → P s → run_entity_op o s = (Ok (), s') → P s') →
  ∀ os s s', Forall Q os → P s → run_entity_ops os s = (Ok (), s') → P s'.
Proof.
  intros Hstep os. induction os as [|o os IH]; intros s s' HQ HP.
  - by intros [= <-].
  - apply Forall_cons in HQ as [Ho Hos].
    intros (s1 & Hrun & Hrest)%run_entity_ops_cons_ok_inv. eauto.
Qed.

(** The last tombstone operation decides: after a successful sequence of
    operations that write no translation under the name [is_deleted], the
    record is active exactly when the last [soft_delete] or [restore] of
    the sequence is a [restore], or when there is none and the record was
    active before. *)
Theorem is_active_last_tombstone os s s' b0 :
  attrs s !! "is_deleted" = Some (VBool b0) →
  Forall (leaves_alone "is_deleted") os →
  run_entity_ops os s = (Ok (), s') →
  ∃ b, last_tombstone os (Some b0) = Some b ∧
       attrs s' !! "is_deleted" = Some (VBool b) ∧
       is_active s' = (Ok (negb b), s').
Proof.
  revert s b0. induction os as [|o os IH]; intros s b0 Hb Halone Hrun.
  - injection Hrun as <-. exists b0. split_and!; [done..|].
    by apply is_active_bool.
  - apply Forall_cons in Halone as [Ho Hos].
    apply run_entity_ops_cons_ok_inv in Hrun as (s1 & Hstep & Hrest).
    destruct o as [o|now|]; simpl in *.
    + apply (IH s1 b0); [|done..].
      by rewrite (run_op_binding _ _ _ _ Ho Hstep).
    + rewrite soft_delete_run in Hstep. injection Hstep as <-.
      eapply (IH _ true); [|done|exact Hrest]. simpl.
      by rewrite lookup_insert_ne, lookup_insert_eq.
    + rewrite restore_run in Hstep. injection Hstep as <-.
      eapply (IH _ false); [|done|exact Hrest]. simpl.
      by rewrite lookup_insert_ne, lookup_insert_eq.
Qed.

Lemma is_active_last_tombstone_example :
  let os := [OpSoftDelete 1735740000;
             OpMixin (OpSet "title_i18n" "en" (VStr "Engineer"));
             OpRestore;
             OpMixin (OpGet "title_i18n" "fa" "en")] in
  ∃ b, last_tombstone os (Some false) = Some b ∧
       attrs (snd (run_entity_ops os new_entity)) !! "is_deleted"
       = Some (VBool b) ∧
       is_active (snd (run_entity_ops os new_entity))
       = (Ok (negb b), snd (run_entity_ops os new_entity)).
Proof.
  apply (is_active_last_tombstone _ new_entity _ false).
  - reflexivity.
  - repeat constructor; simpl; done.
  - vm_compute. reflexivity.
Defined.

(** Deleting again replaces the instant of deletion: two [soft_delete]s
    leave the state of the second alone, and [restore] after any
    [soft_delete] leaves the state of [restore] alone. *)
Theorem soft_delete_absorbs now1 now2 s :
  snd (soft_delete now2 (snd (soft_delete now1 s)))
  = snd (soft_delete now2 s) ∧
  snd (restore (snd (soft_delete now1 s))) = snd (restore s) ∧
  snd (soft_delete now2 (snd (restore s))) = snd (soft_delete now2 s).
Proof.
  rewrite !soft_delete_run, !restore_run. simpl.
  split_and!; f_equal; apply map_eq; intros k;
    (destruct (decide (k = "deleted_at")) as [->|Hd];
     [by simplify_map_eq|]);
    destruct (decide (k = "is_deleted")) as [->|Hi];
    by simplify_map_eq.
Qed.

(** What the reads of the mixin answer depends on the binding of the
    name and on the dictionaries, on nothing else. *)
Lemma get_translation_run_scalar name lang fallback s v :
  attrs s !! name = Some v → v ≠ VNone → (∀ l, v ≠ VDict l) →
  get_translation name lang fallback s
  = (get_translation_scalar v lang fallback, s).
Proof.
  intros Hv Hnone Hdict. destruct v as [|t|n|b|t|l]; simpl.
  - done.
  - destruct (decide (t = "")) as [Ht|Ht].
    { pose proof (bool_decide_eq_true_2 _ Ht) as Hb.
      by run_method ltac:(rewrite ?Hv, ?Hb). }
    pose proof (bool_decide_eq_false_2 _ Ht) as Hb.
    destruct (str_contains lang t) eqn:Hlang;
      [by run_method ltac:(rewrite ?Hv, ?Hb, ?Hlang)|].
    destruct (str_contains fallback t) eqn:Hfb;
      by run_method ltac:(rewrite ?Hv, ?Hb, ?Hlang, ?Hfb).
  - destruct (decide (n = 0%Z)) as [Hn|Hn].
    { pose proof (bool_decide_eq_true_2 _ Hn) as Hb.
      by run_method ltac:(rewrite ?Hv, ?Hb). }
    pose proof (bool_decide_eq_false_2 _ Hn) as Hb.
    by run_method ltac:(rewrite ?Hv, ?Hb).
  - destruct b; by run_method ltac:(rewrite ?Hv).
  - by run_method ltac:(rewrite ?Hv).
  - by edestruct Hdict.
Qed.

Lemma get_translation_depends name lang fallback s1 s2 :
  attrs s1 !! name = attrs s2 !! name → heap s1 = heap s2 →
  fst (get_translation name lang fallback s1)
  = fst (get_translation name lang fallback s2).
Proof.
  intros Hname Hheap.
  destruct (attrs s2 !! name) as [v|] eqn:Hv.
  - destruct (decide (v = VNone)) as [->|Hnone].
    { by rewrite !get_translation_run_none. }
    destruct v as [|t|n|b|t|l]; try done.
    5: { rewrite (get_translation_run_dict _ _ _ s1 l Hname),
           (get_translation_run_dict _ _ _ s2 l Hv).
         unfold deref. by rewrite Hheap. }
    all: by rewrite (get_translation_run_scalar _ _ _ s1 _ Hname),
              (get_translation_run_scalar _ _ _ s2 _ Hv).
  - by rewrite !get_translation_missing.
Qed.

Lemma get_supported_languages_depends name s1 s2 :
  attrs s1 !! name = attrs s2 !! name → heap s1 = heap s2 →
  fst (get_supported_languages name s1)
  = fst (get_supported_languages name s2).
Proof.
  destruct s1 as [a1 h1], s2 as [a2 h2]. simpl. intros Hname <-.
  rewrite !get_supported_languages_run. unfold deref. simpl. rewrite Hname.
  destruct (a2 !! name) as [v|]; [|done].
  destruct v; simpl; try done; by repeat case_match.
Qed.

(** The tombstone operations touch the tombstone pair alone: every other
    attribute keeps its binding and every dictionary its entries, so a
    record that is soft-deleted or restored answers [get_translation] and
    [get_supported_languages] on its fields as it did before. *)
Theorem tombstone_frame now s :
  let deleted := snd (soft_delete now s) in
  let restored := snd (restore s) in
  heap deleted = heap s ∧ heap restored = heap s ∧
  (∀ name, name ≠ "is_deleted" → name ≠ "deleted_at" →
     attrs deleted !! name = attrs s !! name ∧
     attrs restored !! name = attrs s !! name ∧
     (∀ lang fallback,
        fst (get_translation name lang fallback deleted)
        = fst (get_translation name lang fallback s) ∧
        fst (get_translation name lang fallback restored)
        = fst (get_translation name lang fallback s)) ∧
     fst (get_supported_languages name deleted)
     = fst (get_supported_languages name s) ∧
     fst (get_supported_languages name restored)
     = fst (get_supported_languages name s)).
Proof.
  rewrite soft_delete_run, restore_run. simpl. split_and!; [done..|].
  intros name Hi Hd.
  assert (<["deleted_at":=VDateTime now]>
            (<["is_deleted":=VBool true]> (attrs s)) !! name
          = attrs s !! name) as Hdel by by simplify_map_eq.
  assert (<["deleted_at":=VNone]>
            (<["is_deleted":=VBool false]> (attrs s)) !! name
          = attrs s !! name) as Hres by by simplify_map_eq.
  split_and!; try done.
  - intros lang fallback.
    split; by apply get_translation_depends.
  - by apply get_supported_languages_depends.
  - by apply get_supported_languages_depends.
Qed.

(** The tombstone pair stays in agreement: [soft_delete] and [restore]
    each establish it, and an operation of the mixin that writes no
    translation under either of the two names keeps it. *)
Theorem tombstone_consistent_invariant :
  (∀ now s, tombstone_consistent (snd (soft_delete now s))) ∧
  (∀ s, tombstone_consistent (snd (restore s))) ∧
  (∀ os s s',
     tombstone_consistent s →
     Forall (λ o, leaves_alone "is_deleted" o ∧ leaves_alone "deleted_at" o)
       os →
     run_entity_ops os s = (Ok (), s') →
     tombstone_consistent s').
Proof.
  split_and!.
  - intros now s. rewrite soft_delete_run. left. simpl.
    split; [by simplify_map_eq|]. exists now. by simplify_map_eq.
  - intros s. rewrite restore_run. right. simpl.
    split; by simplify_map_eq.
  - intros os s s' Hs Hos.
    apply (run_entity_ops_invariant tombstone_consistent
             (λ o, leaves_alone "is_deleted" o ∧ leaves_alone "deleted_at" o));
      [|done..].
    clear. intros o s s' [Hi Hd] Hs Hrun. destruct o as [o|now|]; simpl in *.
    + unfold tombstone_consistent.
      by rewrite (run_op_binding _ _ _ _ Hi Hrun),
                 (run_op_binding _ _ _ _ Hd Hrun).
    + rewrite soft_delete_run in Hrun. injection Hrun as <-. left. simpl.
      split; [by simplify_map_eq|]. exists now. by simplify_map_eq.
    + rewrite restore_run in Hrun. injection Hrun as <-. right. simpl.
      split; by simplify_map_eq.
Qed.

(** [set_translation] takes every attribute that holds [None] for an empty
    translatable field, whatever its name: the call succeeds and binds the
    attribute to a new dictionary with the one entry.  On the
    [deleted_at] of an active record this leaves a record that is active
    and has a [deleted_at] that is not [None]. *)
Theorem set_translation_on_none_attribute s name lang text :
  attrs s !! name = Some VNone →
  lang ∈ SUPPORTED_LANGUAGES →
  ∃ s', set_translation name lang (VStr text) s = (Ok (), s') ∧
        read_attr s' name = Some (Mapping [(lang, text)]) ∧
        (name = "deleted_at" → tombstone_consistent s →
         is_active s' = (Ok true, s') ∧ ¬ tombstone_consistent s').
Proof.
  intros Hnone Hlang%supported_iff.
  rewrite set_translation_run, Hnone, Hlang. eexists. split; [done|].
  unfold read_attr. simpl. rewrite lookup_insert_eq. simpl.
  rewrite deref_insert_eq. split; [done|].
  intros -> [[_ [t Ht]]|[Hactive _]]; [congruence|]. split.
  - apply (is_active_bool _ false). simpl. by rewrite lookup_insert_ne.
  - intros [[Hdel _]|[_ Hat]]; simpl in *.
    + rewrite lookup_insert_ne in Hdel by done. congruence.
    + by rewrite lookup_insert_eq in Hat.
Qed.

Lemma set_translation_on_none_attribute_example :
  ∃ s', set_translation "deleted_at" "en" (VStr "x") new_entity
        = (Ok (), s') ∧
        read_attr s' "deleted_at" = Some (Mapping [("en", "x")]) ∧
        (("deleted_at" : string) = "deleted_at" →
         tombstone_consistent new_entity →
         is_active s' = (Ok true, s') ∧ ¬ tombstone_consistent s').
Proof.
  apply (set_translation_on_none_attribute new_entity "deleted_at" "en" "x").
  - reflexivity.
  - unfold SUPPORTED_LANGUAGES. set_solver.
Defined.

End SoftDelete.

(** * BaseModel: [to_dict] *)

Section ToDict.

Implicit Types (s : state) (columns : list string) (d acc : objdict).

Lemma obj_get_setitem_eq k v d : obj_get k (obj_setitem k v d) = Some v.
Proof.
  induction d as [|[k' v'] d IH]; simpl.
  - by rewrite decide_True.
  - destruct (decide (k = k')) as [->|Hne]; simpl.
    + by rewrite decide_True.
    + by rewrite decide_False.
Qed.

Lemma obj_get_setitem_ne k k' v d :
  k ≠ k' → obj_get k' (obj_setitem k v d) = obj_get k' d.
Proof.
  intros Hne. induction d as [|[k0 v0] d IH]; simpl.
  - by rewrite decide_False.
  - destruct (decide (k = k0)) as [->|Hk]; simpl.
    + by rewrite !decide_False.
    + by rewrite IH.
Qed.

Lemma obj_keys_setitem k' k v d :
  k' ∈ (obj_setitem k v d).*1 ↔ k' = k ∨ k' ∈ d.*1.
Proof.
  induction d as [|[k0 v0] d IH]; csimpl.
  - rewrite list_elem_of_singleton. split; [auto|].
    intros [?|?%elem_of_nil]; done.
  - case_decide as Hk; csimpl; rewrite !elem_of_cons.
    + subst. tauto.
    + rewrite IH. tauto.
Qed.

Lemma obj_setitem_NoDup k v d : NoDup d.*1 → NoDup (obj_setitem k v d).*1.
Proof.
  induction d as [|[k0 v0] d IH]; csimpl.
  - intros _. apply NoDup_singleton.
  - intros [Hk0 Hd]%NoDup_cons. case_decide as Hk; csimpl.
    + subst. by apply NoDup_cons.
    + apply NoDup_cons. split; [|auto].
      rewrite obj_keys_setitem. intros [?|?]; [congruence|done].
Qed.

Lemma obj_get_None k d : obj_get k d = None ↔ k ∉ d.*1.
Proof.
  induction d as [|[k0 v0] d IH]; csimpl.
  - split; [intros _ ?%elem_of_nil; done|done].
  - rewrite elem_of_cons. case_decide as Hk.
    + split; [done|]. intros Hn. destruct Hn. by left.
    + rewrite IH. tauto.
Qed.

(** The comprehension over columns that are all attributes. *)
Lemma comprehension_ok columns :
  ∀ acc s,
    (∀ c, c ∈ columns → is_Some (attrs s !! c)) →
    ∃ d, comprehension columns acc s = (Ok d, s) ∧
         (∀ c, c ∈ columns → obj_get c d = attrs s !! c) ∧
         (∀ c, c ∉ columns → obj_get c d = obj_get c acc) ∧
         (∀ k, k ∈ d.*1 ↔ k ∈ acc.*1 ∨ k ∈ columns) ∧
         (NoDup acc.*1 → NoDup d.*1).
Proof.
  induction columns as [|c columns IH]; intros acc s Hall.
  - exists acc. split_and!; try done.
    + by intros c ?%elem_of_nil.
    + intros k. split; [auto|]. by intros [?|?%elem_of_nil].
  - destruct (Hall c) as [v Hv]; [left|].
    destruct (IH (obj_setitem c v acc) s)
      as (d & Hrun & Hin & Hout & Hkeys & Hnodup).
    { intros c' Hc'. apply Hall. by right. }
    exists d. split_and!.
    + simpl. unfold bind, getattr. by rewrite Hv.
    + intros c' Hc'. destruct (decide (c' ∈ columns)) as [|Hnot]; [auto|].
      apply elem_of_cons in Hc' as [->|]; [|done].
      by rewrite (Hout _ Hnot), obj_get_setitem_eq.
    + intros c' Hc'. apply not_elem_of_cons in Hc' as [Hne Hc'].
      by rewrite (Hout _ Hc'), obj_get_setitem_ne.
    + intros k. rewrite Hkeys, obj_keys_setitem, elem_of_cons. tauto.
    + intros Hacc. by apply Hnodup, obj_setitem_NoDup.
Qed.

(** The comprehension over columns of which one is no attribute. *)
Lemma comprehension_fail columns :
  ∀ acc s c,
    c ∈ columns → attrs s !! c = None →
    comprehension columns acc s = (Raise AttributeError, s).
Proof.
  induction columns as [|c0 columns IH]; intros acc s c Hc Hnone.
  - by apply elem_of_nil in Hc.
  - simpl. unfold bind, getattr.
    destruct (attrs s !! c0) as [v|] eqn:Hv; [|done].
    apply elem_of_cons in Hc as [->|Hc]; [congruence|].
    by apply (IH _ _ c).
Qed.

Lemma comprehension_cases columns acc s :
  (∃ d, comprehension columns acc s = (Ok d, s) ∧
        (∀ c, c ∈ columns → obj_get c d = attrs s !! c) ∧
        (∀ c, c ∉ columns → obj_get c d = obj_get c acc)) ∨
  comprehension columns acc s = (Raise AttributeError, s).
Proof.
  destruct (decide (Forall (λ c, is_Some (attrs s !! c)) columns))
    as [Hall|Hmissing].
  - left. destruct (comprehension_ok columns acc s)
      as (d & Hrun & Hin & Hout & _); [by apply Forall_forall|eauto].
  - right. apply not_Forall_Exists in Hmissing; [|apply _].
    apply Exists_exists in Hmissing as (c & Hc & Hnone).
    apply eq_None_not_Some in Hnone.
    by apply (comprehension_fail _ _ _ c).
Qed.

Lemma read_only_comprehension columns :
  ∀ acc, read_only (comprehension columns acc).
Proof.
  induction columns as [|c columns IH]; intros acc; simpl;
    eauto with read_only.
Qed.

(** [to_dict] when the tombstone does not hide the record. *)
Lemma to_dict_visible columns include_deleted s :
  include_deleted = true ∨
  attrs s !! "is_deleted" = Some (VBool false) ∨
  attrs s !! "is_deleted" = Some VNone →
  to_dict columns include_deleted s = comprehension columns [] s.
Proof.
  unfold to_dict, bind, getattr, truthy, ret.
  intros [->|[Hf|Hn]]; [done|destruct include_deleted; [done|]..]; simpl.
  - by rewrite Hf.
  - by rewrite Hn.
Qed.

(** A record that is not hidden serialises to its columns: [to_dict]
    called with [include_deleted], or on a record whose [is_deleted] is
    [False] or still [None], returns a dictionary whose keys are exactly
    the columns, each once, and whose value at a column is the value of
    the attribute of that name; it raises [AttributeError] when a column
    is no attribute of the entity.  Either way the entity is left as it
    is. *)
Theorem to_dict_columns columns include_deleted s :
  include_deleted = true ∨
  attrs s !! "is_deleted" = Some (VBool false) ∨
  attrs s !! "is_deleted" = Some VNone →
  ((∀ c, c ∈ columns → is_Some (attrs s !! c)) →
   ∃ d, to_dict columns include_deleted s = (Ok d, s) ∧
        (∀ c, c ∈ columns → obj_get c d = attrs s !! c) ∧
        (∀ k, k ∈ d.*1 ↔ k ∈ columns) ∧
        NoDup d.*1) ∧
  (∀ c, c ∈ columns → attrs s !! c = None →
        to_dict columns include_deleted s = (Raise AttributeError, s)).
Proof.
  intros Hvisible. rewrite (to_dict_visible _ _ _ Hvisible). split.
  - intros Hall.
    destruct (comprehension_ok columns [] s Hall)
      as (d & Hrun & Hin & _ & Hkeys & Hnodup).
    exists d. split_and!; [done..| |].
    + intros k. rewrite Hkeys. split; [|auto].
      by intros [?%elem_of_nil|?].
    + apply Hnodup. constructor.
  - intros c Hc Hnone. by apply (comprehension_fail _ _ _ c).
Qed.

Lemma to_dict_columns_example :
  ∃ d, to_dict ["id"; "is_deleted"; "title_i18n"; "id"] false entity_en
       = (Ok d, entity_en) ∧
       obj_get "title_i18n" d = Some (VDict 1%positive) ∧
       obj_get "is_deleted" d = Some (VBool false) ∧
       length d = 3.
Proof.
  destruct (proj1 (to_dict_columns ["id"; "is_deleted"; "title_i18n"; "id"]
                     false entity_en
                     (or_intror (or_introl eq_refl))))
    as (d & Hrun & Hvalues & Hkeys & Hnodup).
  { intros c Hc. apply (bool_decide_unpack _).
    repeat (apply elem_of_cons in Hc as [->|Hc]; [by vm_compute|]).
    by apply elem_of_nil in Hc. }
  exists d. split; [done|].
  assert (fst (to_dict ["id"; "is_deleted"; "title_i18n"; "id"] false
                 entity_en) = Ok d) as Hd by by rewrite Hrun.
  vm_compute in Hd. injection Hd as <-. done.
Defined.

(** A deleted record serialises to nothing: after [soft_delete], and on
    any record whose [is_deleted] is [True], [to_dict] without
    [include_deleted] returns the empty dictionary whatever the columns
    are (not even the id is in it, and no column is read); with
    [include_deleted] it returns the columns, the tombstone pair as
    [soft_delete] set it among them. *)
Theorem to_dict_hides_deleted columns s :
  (attrs s !! "is_deleted" = Some (VBool true) →
   to_dict columns false s = (Ok [], s)) ∧
  (∀ now, fst (to_dict columns false (snd (soft_delete now s))) = Ok []) ∧
  (∀ now d,
     fst (to_dict columns true (snd (soft_delete now s))) = Ok d →
     ("is_deleted" ∈ columns → obj_get "is_deleted" d = Some (VBool true)) ∧
     ("deleted_at" ∈ columns →
      obj_get "deleted_at" d = Some (VDateTime now))).
Proof.
  assert (∀ s', attrs s' !! "is_deleted" = Some (VBool true) →
                to_dict columns false s' = (Ok [], s')) as Hhidden.
  { intros s' Hdel. unfold to_dict, bind, getattr, truthy, ret. simpl.
    by rewrite Hdel. }
  split_and!.
  - apply Hhidden.
  - intros now. rewrite Hhidden; [done|].
    rewrite soft_delete_run. simpl. by simplify_map_eq.
  - intros now d. rewrite soft_delete_run. simpl.
    set (s' := State _ _). intros Hd.
    rewrite to_dict_visible in Hd by by left.
    destruct (comprehension_cases columns [] s')
      as [(d' & Hrun & Hin & _)|Hfail].
    + rewrite Hrun in Hd. injection Hd as <-.
      split; intros Hc; rewrite (Hin _ Hc); unfold s'; simpl;
        by simplify_map_eq.
    + by rewrite Hfail in Hd.
Qed.

Lemma to_dict_hides_deleted_example :
  to_dict ["id"; "title_i18n"] false (snd (soft_delete 1735740000 entity_en))
  = (Ok [], snd (soft_delete 1735740000 entity_en)).
Proof.
  apply (to_dict_hides_deleted ["id"; "title_i18n"]
           (snd (soft_delete 1735740000 entity_en))).
  vm_compute. reflexivity.
Defined.

(** [to_dict] copies no translation: a dictionary found in its result is
    the very object the entity's attribute is bound to, so the entries a
    later [set_translation] on that field writes are read through the
    result as well. *)
Theorem to_dict_shares_mappings columns include_deleted s s0 d c l :
  to_dict columns include_deleted s = (Ok d, s0) →
  obj_get c d = Some (VDict l) →
  attrs s !! c = Some (VDict l) ∧
  ∀ lang text s',
    set_translation c lang (VStr text) s = (Ok (), s') →
    view_of s' (VDict l)
    = Mapping (PyDict.setitem lang text (deref s l)).
Proof.
  intros Hrun Hget.
  assert (attrs s !! c = Some (VDict l)) as Hattr.
  { unfold to_dict, bind in Hrun.
    destruct (if negb include_deleted then _ else _) as [[hidden|e] s1]
      eqn:Hhidden; [|done].
    destruct hidden; [by injection Hrun as <- <-|].
    assert (s1 = s) as ->.
    { destruct include_deleted; simpl in Hhidden.
      - unfold ret in Hhidden. congruence.
      - unfold bind, getattr, truthy in Hhidden.
        destruct (attrs s !! "is_deleted"); [|done]. congruence. }
    destruct (comprehension_cases columns [] s)
      as [(d' & Hrun' & Hin & Hout)|Hfail].
    - rewrite Hrun' in Hrun. injection Hrun as <- <-.
      destruct (decide (c ∈ columns)) as [Hc|Hc].
      + by rewrite <-(Hin _ Hc).
      + by rewrite (Hout _ Hc) in Hget.
    - by rewrite Hfail in Hrun. }
  split; [done|]. intros lang text s' Hset.
  rewrite set_translation_run, Hattr in Hset.
  destruct (list_contains lang SUPPORTED_LANGUAGES); [|done].
  injection Hset as <-. simpl. by rewrite deref_insert_eq.
Qed.

Lemma to_dict_shares_mappings_example :
  attrs entity_en !! "title_i18n" = Some (VDict 1%positive) ∧
  ∀ lang text s',
    set_translation "title_i18n" lang (VStr text) entity_en = (Ok (), s') →
    view_of s' (VDict 1%positive)
    = Mapping (PyDict.setitem lang text (deref entity_en 1%positive)).
Proof.
  apply (to_dict_shares_mappings ["id"; "title_i18n"] false entity_en
           entity_en
           [("id", VStr "6fa459ea-ee8a-3ca4-894e-db77e160355e");
            ("title_i18n", VDict 1%positive)]).
  - vm_compute. reflexivity.
  - reflexivity.
Defined.

(** The reads write nothing: [is_active], [to_dict] and
    [get_supported_languages] leave the entity and every dictionary as
    they are, whether they return or raise. *)
Theorem reads_leave_the_entity s :
  snd (is_active s) = s ∧
  (∀ columns include_deleted, snd (to_dict columns include_deleted s) = s) ∧
  (∀ name, snd (get_supported_languages name s) = s).
Proof.
  split_and!.
  - revert s. change (read_only is_active).
    unfold is_active. eauto 10 with read_only.
  - intros columns include_deleted. revert s.
    change (read_only (to_dict columns include_deleted)).
    unfold to_dict. apply read_only_bind.
    + apply read_only_if; eauto 10 with read_only.
    + intros hidden. apply read_only_if; [apply read_only_ret|].
      apply read_only_comprehension.
  - intros name. apply get_supported_languages_read_only.
Qed.

End ToDict.

(** * BaseModel: [__tablename__] *)

Section TableName.

Implicit Types (name s : string) (c : ascii).

Lemma is_upper_lower c : is_upper (ascii_lower c) = false.
Proof. destruct c as [[] [] [] [] [] [] [] []]; by vm_compute. Qed.

Lemma ascii_lower_not_upper c : is_upper c = false → ascii_lower c = c.
Proof. unfold ascii_lower. by intros ->. Qed.

Lemma ascii_lower_underscore c : ascii_lower c = "_"%char ↔ c = "_"%char.
Proof.
  destruct c as [[] [] [] [] [] [] [] []]; vm_compute; split; congruence.
Qed.

Lemma count_upper_lower s : count_upper (str_lower s) = 0.
Proof.
  induction s as [|c s IH]; simpl; [done|]. by rewrite is_upper_lower, IH.
Qed.

Lemma length_str_lower s : String.length (str_lower s) = String.length s.
Proof. induction s as [|c s IH]; simpl; [done|]. by rewrite IH. Qed.

Lemma length_underscore_capitals s :
  String.length (underscore_capitals s) = String.length s + count_upper s.
Proof.
  induction s as [|c s IH]; simpl; [done|].
  destruct (is_upper c); simpl; rewrite IH; lia.
Qed.

Lemma str_lower_no_capital s : count_upper s = 0 → str_lower s = s.
Proof.
  induction s as [|c s IH]; simpl; [done|].
  destruct (is_upper c) eqn:Hc; simpl; [done|]. intros Hs.
  by rewrite (ascii_lower_not_upper _ Hc), IH.
Qed.

Lemma underscore_capitals_no_capital s :
  count_upper s = 0 → underscore_capitals s = s.
Proof.
  induction s as [|c s IH]; simpl; [done|].
  destruct (is_upper c); simpl; [done|]. intros Hs. by rewrite IH.
Qed.

Lemma drop_underscores_tail s :
  drop_underscores (str_lower (underscore_capitals s))
  = str_lower (drop_underscores s).
Proof.
  induction s as [|c s IH]; simpl; [done|].
  destruct (is_upper c) eqn:Hc; simpl.
  - destruct (decide (c = "_"%char)) as [->|Hne]; [by vm_compute in Hc|].
    rewrite decide_False by by rewrite ascii_lower_underscore.
    simpl. by rewrite IH.
  - destruct (decide (c = "_"%char)) as [->|Hne]; [done|].
    rewrite decide_False by by rewrite ascii_lower_underscore.
    simpl. by rewrite IH.
Qed.

(** The table name has no capital letter, and it is longer than the class
    name by one underscore for each capital after the first character
    (each letter of an acronym gets its own). *)
Theorem tablename_shape name :
  is_ascii name →
  count_upper (__tablename__ name) = 0 ∧
  String.length (__tablename__ name)
  = String.length name
    + match name with
      | EmptyString => 0
      | String _ rest => count_upper rest
      end.
Proof.
  intros _. unfold __tablename__. split; [apply count_upper_lower|].
  rewrite length_str_lower. destruct name as [|c rest]; simpl; [done|].
  by rewrite length_underscore_capitals.
Qed.

Lemma tablename_shape_example :
  count_upper (__tablename__ "HTTPServerConfig") = 0 ∧
  String.length (__tablename__ "HTTPServerConfig")
  = String.length "HTTPServerConfig" + count_upper "TTPServerConfig".
Proof.
  apply (tablename_shape "HTTPServerConfig").
  vm_compute. repeat split.
Defined.

(** The table name keeps the characters of the class name in their order:
    without its underscores it is the class name without its underscores,
    in lower case. *)
Theorem tablename_keeps_letters name :
  is_ascii name →
  drop_underscores (__tablename__ name) = str_lower (drop_underscores name).
Proof.
  intros _. unfold __tablename__. destruct name as [|c rest]; simpl; [done|].
  destruct (decide (c = "_"%char)) as [->|Hne].
  - rewrite decide_True by by vm_compute. apply drop_underscores_tail.
  - rewrite decide_False by by rewrite ascii_lower_underscore.
    simpl. by rewrite drop_underscores_tail.
Qed.

Lemma tablename_keeps_letters_example :
  drop_underscores (__tablename__ "Job_ApplicationV2")
  = str_lower (drop_underscores "Job_ApplicationV2").
Proof.
  apply (tablename_keeps_letters "Job_ApplicationV2").
  vm_compute. repeat split.
Defined.

(** A name without capitals is its own table name; so [__tablename__]
    applied twice is [__tablename__] applied once, and a class whose name
    is the table name of another class gets the table of that class. *)
Theorem tablename_fixes_lowercase name :
  is_ascii name →
  (count_upper name = 0 → __tablename__ name = name) ∧
  __tablename__ (__tablename__ name) = __tablename__ name ∧
  (count_upper name ≠ 0 → __tablename__ name ≠ name).
Proof.
  intros _.
  assert (∀ n, count_upper n = 0 → __tablename__ n = n) as Hfix.
  { intros n Hn. unfold __tablename__. destruct n as [|c rest]; [done|].
    simpl in Hn. destruct (is_upper c) eqn:Hc; [done|]. simpl in Hn.
    unfold camel_sub. rewrite (underscore_capitals_no_capital _ Hn).
    simpl. by rewrite (ascii_lower_not_upper _ Hc), str_lower_no_capital. }
  assert (__tablename__ (__tablename__ name) = __tablename__ name) as Hidem.
  { apply Hfix. unfold __tablename__. apply count_upper_lower. }
  split_and!; [apply Hfix|done|]. intros Hupper Heq. apply Hupper. rewrite <-Heq. unfold __tablename__.
  apply count_upper_lower.
Qed.

Lemma tablename_fixes_lowercase_example :
  (count_upper "UserProfile" = 0 → __tablename__ "UserProfile" = "UserProfile") ∧
  __tablename__ (__tablename__ "UserProfile") = __tablename__ "UserProfile" ∧
  (count_upper "UserProfile" ≠ 0 → __tablename__ "UserProfile" ≠ "UserProfile").
Proof.
  apply (tablename_fixes_lowercase "UserProfile").
  vm_compute. repeat split.
Defined.

End TableName.

(** * Settings: [origins_list] *)

Section Origins.

Implicit Types (s a b piece : string) (c : ascii) (pieces : list string).

Lemma split_comma_cons s : ∃ piece pieces, split_comma s = piece :: pieces.
Proof.
  induction s as [|c s (piece & pieces & IH)]; simpl; [eauto|].
  case_decide; [eauto|]. rewrite IH. eauto.
Qed.

Lemma length_split_comma s :
  length (split_comma s) = S (count_commas s).
Proof.
  induction s as [|c s IH]; simpl; [done|].
  case_decide; simpl; [by rewrite IH|].
  destruct (split_comma_cons s) as (piece & pieces & Hs).
  rewrite Hs in IH |- *. simpl in *. done.
Qed.

Lemma split_comma_app a b :
  split_comma (a ++ String ","%char b) = (split_comma a ++ split_comma b)%list.
Proof.
  induction a as [|c a IH]; simpl.
  - done.
  - case_decide; [by rewrite IH|]. rewrite IH.
    by destruct (split_comma_cons a) as (piece & pieces & ->).
Qed.

Lemma split_comma_no_comma s :
  has_char ","%char s = false → split_comma s = [s].
Proof.
  induction s as [|c s IH]; simpl; [done|].
  intros [Hc Hs]%orb_false_elim. apply bool_decide_eq_false in Hc.
  rewrite decide_False by congruence. by rewrite (IH Hs).
Qed.

Lemma split_comma_pieces s :
  Forall (λ piece, has_char ","%char piece = false) (split_comma s).
Proof.
  induction s as [|c s IH]; simpl; [by repeat constructor|].
  case_decide as Hc; [by constructor|].
  destruct (split_comma_cons s) as (piece & pieces & Hs).
  rewrite Hs in IH |- *. apply Forall_cons in IH as [Hpiece Hpieces].
  constructor; [|done]. simpl. rewrite Hpiece.
  by rewrite bool_decide_false by congruence.
Qed.

(** [lstrip] returns a suffix and [rstrip] a prefix: no character comes
    in. *)
Lemma has_char_lstrip c s : has_char c (lstrip s) = true → has_char c s = true.
Proof.
  induction s as [|c' s IH]; simpl; [done|].
  destruct (is_space c'); simpl; [|done].
  intros Hc%IH. rewrite Hc. apply orb_true_r.
Qed.

Lemma has_char_rstrip c s : has_char c (rstrip s) = true → has_char c s = true.
Proof.
  induction s as [|c' s IH]; simpl; [done|].
  destruct (rstrip s) as [|c'' s'] eqn:Hs.
  - destruct (is_space c'); simpl; [done|].
    rewrite orb_false_r. intros ->. done.
  - simpl in *. intros [->|Hc]%orb_true_iff; [done|].
    rewrite (IH Hc). apply orb_true_r.
Qed.

Lemma lstrip_starts_clean s : starts_clean (lstrip s).
Proof.
  induction s as [|c s IH]; simpl; [done|].
  by destruct (is_space c) eqn:Hc; simpl.
Qed.

Lemma lstrip_clean s : starts_clean s → lstrip s = s.
Proof. destruct s as [|c s]; simpl; [done|]. by intros ->. Qed.

Lemma rstrip_starts_clean s : starts_clean s → starts_clean (rstrip s).
Proof.
  destruct s as [|c s]; simpl; [done|]. intros Hc.
  destruct (rstrip s); simpl; [by rewrite Hc|done].
Qed.

Lemma rstrip_rstrip s : rstrip (rstrip s) = rstrip s.
Proof.
  induction s as [|c s IH]; simpl; [done|].
  destruct (rstrip s) as [|c' s'] eqn:Hs.
  - destruct (is_space c) eqn:Hc; simpl; [done|]. by rewrite Hc.
  - simpl in *. by rewrite IH.
Qed.

Lemma strip_strip s : strip (strip s) = strip s.
Proof.
  unfold strip.
  rewrite (lstrip_clean (rstrip (lstrip s)))
    by apply rstrip_starts_clean, lstrip_starts_clean.
  apply rstrip_rstrip.
Qed.

(** The last character of [rstrip s], when it has one, is no space. *)
Lemma rstrip_ends_clean s :
  rstrip s ≠ EmptyString →
  ∃ front c', rstrip s = front ++ String c' EmptyString ∧ is_space c' = false.
Proof.
  intros Hne. induction s as [|c0 s IH]; simpl in *; [done|].
  destruct (rstrip s) as [|c1 s1] eqn:Hs.
  - destruct (is_space c0) eqn:Hc0; [done|].
    exists EmptyString, c0. done.
  - destruct IH as (front & c' & Hfront & Hc'); [done|].
    exists (String c0 front), c'. simpl. by rewrite Hfront.
Qed.

(** One origin per piece between commas: [origins_list] never returns an
    empty list, it returns one more origin than the setting has commas;
    the empty setting gives one empty origin. *)
Theorem origins_list_length s :
  is_ascii s →
  length (origins_list s) = S (count_commas s) ∧
  origins_list EmptyString = [EmptyString].
Proof.
  intros _. unfold origins_list. split; [|done].
  by rewrite length_fmap, length_split_comma.
Qed.

Lemma origins_list_length_example :
  length (origins_list DEFAULT_ALLOWED_ORIGINS)
  = S (count_commas DEFAULT_ALLOWED_ORIGINS) ∧
  origins_list EmptyString = [EmptyString].
Proof.
  apply (origins_list_length DEFAULT_ALLOWED_ORIGINS).
  vm_compute. repeat split.
Defined.

(** The origins of two settings joined by a comma are the origins of the
    first followed by the origins of the second; so a comma at the end of
    the setting adds an empty origin. *)
Theorem origins_list_app a b :
  is_ascii a → is_ascii b →
  origins_list (a ++ String ","%char b)
  = (origins_list a ++ origins_list b)%list ∧
  origins_list (a ++ String ","%char EmptyString)
  = (origins_list a ++ [EmptyString])%list.
Proof.
  intros _ _. unfold origins_list.
  by rewrite !split_comma_app, !fmap_app.
Qed.

Lemma origins_list_app_example :
  origins_list ("http://a.example " ++ String ","%char " http://b.example")
  = (origins_list "http://a.example " ++ origins_list " http://b.example")%list
  ∧ origins_list ("http://a.example " ++ String ","%char EmptyString)
    = (origins_list "http://a.example " ++ [EmptyString])%list.
Proof.
  apply (origins_list_app "http://a.example " " http://b.example");
    vm_compute; repeat split.
Defined.

(** Every origin returned is clean: it holds no comma, it neither starts
    nor ends with a white-space character, and stripping it again changes
    nothing. *)
Theorem origins_list_clean s origin :
  is_ascii s →
  origin ∈ origins_list s →
  has_char ","%char origin = false ∧
  starts_clean origin ∧
  (origin ≠ EmptyString →
   ∃ front c, origin = front ++ String c EmptyString ∧ is_space c = false) ∧
  strip origin = origin.
Proof.
  intros _ (piece & -> & Hpiece)%list_elem_of_fmap.
  pose proof (split_comma_pieces s) as Hpieces.
  rewrite Forall_forall in Hpieces. specialize (Hpieces _ Hpiece).
  split_and!.
  - apply not_true_is_false. intros Hc. unfold strip in Hc.
    apply has_char_rstrip, has_char_lstrip in Hc. congruence.
  - apply rstrip_starts_clean, lstrip_starts_clean.
  - unfold strip. apply rstrip_ends_clean.
  - apply strip_strip.
Qed.

Lemma origins_list_clean_example :
  has_char ","%char "http://b.example" = false ∧
  starts_clean "http://b.example" ∧
  ("http://b.example" ≠ EmptyString →
   ∃ front c, "http://b.example" = front ++ String c EmptyString ∧
              is_space c = false) ∧
  strip "http://b.example" = "http://b.example".
Proof.
  apply (origins_list_clean "http://a.example , http://b.example ").
  - vm_compute. repeat split.
  - vm_compute. right. left.
Defined.

Lemma split_comma_join pieces :
  pieces ≠ [] →
  Forall (λ piece, has_char ","%char piece = false) pieces →
  split_comma (join_comma pieces) = pieces.
Proof.
  induction pieces as [|piece pieces IH]; [done|]. intros _ Hall.
  apply Forall_cons in Hall as [Hpiece Hall].
  destruct pieces as [|piece' pieces].
  - simpl. by apply split_comma_no_comma.
  - change (join_comma (piece :: piece' :: pieces))
      with (piece ++ String ","%char (join_comma (piece' :: pieces))).
    rewrite split_comma_app, IH by done.
    by rewrite split_comma_no_comma.
Qed.

(** Round trip with [join]: a non-empty list of origins that hold no
    comma and are stripped already is what [origins_list] returns for the
    setting that joins them with commas. *)
Theorem origins_list_join pieces :
  is_ascii (join_comma pieces) →
  pieces ≠ [] →
  Forall (λ piece, has_char ","%char piece = false ∧ strip piece = piece)
    pieces →
  origins_list (join_comma pieces) = pieces.
Proof.
  intros _ Hne Hall. unfold origins_list. rewrite split_comma_join.
  - induction Hall as [|piece pieces' [_ Hstrip] _ IH]; [done|].
    csimpl. rewrite Hstrip. f_equal. destruct pieces'; [done|]. by apply IH.
  - done.
  - eapply Forall_impl; [exact Hall|]. by intros piece [? _].
Qed.

Lemma origins_list_join_example :
  origins_list (join_comma ["http://localhost:3000"; "http://localhost:8000"])
  = ["http://localhost:3000"; "http://localhost:8000"].
Proof.
  apply (origins_list_join
           ["http://localhost:3000"; "http://localhost:8000"]).
  - vm_compute. repeat split.
  - done.
  - repeat constructor; by vm_compute.
Defined.

End Origins.

(** * MultilingualMixin: further properties *)

Section MixinMore.

Implicit Types (s : state) (name lang fallback : string) (d : dict).

Lemma setitem_setitem k v1 v2 d :
  PyDict.setitem k v2 (PyDict.setitem k v1 d) = PyDict.setitem k v2 d.
Proof.
  induction d as [|[k' v'] d IH]; simpl.
  - by rewrite decide_True.
  - case_decide; simpl; [by rewrite decide_True|].
    rewrite decide_False by done. by rewrite IH.
Qed.

(** [get_translation] answers [None] only for a field without any
    translation, and the text it returns is always one of the texts
    stored for the field. *)
Theorem get_translation_none_iff_empty s name lang fallback :
  translatable s name →
  (fst (get_translation name lang fallback s) = Ok None
   ↔ field_mapping s name = []) ∧
  (∀ t, fst (get_translation name lang fallback s) = Ok (Some t) →
        t ∈ PyDict.values (field_mapping s name)).
Proof.
  intros Htr. rewrite (get_translation_run _ _ _ _ Htr). simpl.
  generalize (field_mapping s name). intros d. unfold resolve. split.
  - split; [|by intros ->].
    destruct (PyDict.get lang d); [done|].
    destruct (PyDict.get fallback d); [done|].
    by destruct d as [|[k v] d].
  - intros t.
    assert (∀ k v, PyDict.get k d = Some v → v ∈ PyDict.values d) as Hin.
    { intros k v Hget%PyDictFacts.get_Some_elem.
      by apply (list_elem_of_fmap_2 snd _ (k, v)). }
    destruct (PyDict.get lang d) as [t1|] eqn:Hlang.
    { intros [= <-]. eauto. }
    destruct (PyDict.get fallback d) as [t2|] eqn:Hfb.
    { intros [= <-]. eauto. }
    destruct d as [|[k v] d]; [done|]. simpl. intros [= <-]. left.
Qed.

Lemma get_translation_none_iff_empty_example :
  (fst (get_translation "title_i18n" "tr" "ar" entity_en) = Ok None
   ↔ field_mapping entity_en "title_i18n" = []) ∧
  (∀ t, fst (get_translation "title_i18n" "tr" "ar" entity_en)
        = Ok (Some t) →
        t ∈ PyDict.values (field_mapping entity_en "title_i18n")).
Proof.
  apply (get_translation_none_iff_empty entity_en "title_i18n" "tr" "ar").
  right. exists 1%positive. vm_compute. reflexivity.
Defined.

Lemma run_entity_op_mapping name o s s' :
  name ≠ "is_deleted" → name ≠ "deleted_at" →
  run_entity_op o s = (Ok (), s') →
  field_mapping s' name = field_mapping s name ∨
  ∃ lang text,
    lang ∈ SUPPORTED_LANGUAGES ∧
    field_mapping s' name = PyDict.setitem lang text (field_mapping s name).
Proof.
  intros Hi Hd. destruct o as [o|now|]; simpl.
  - intros [->|(g & lang & val & -> & Hset)]%run_op_ok_inv; [by left|].
    apply (set_translation_mapping _ _ _ _ _ name) in Hset
      as (Hlang & text & -> & [->| ->]); [by left|]. right. eauto.
  - rewrite soft_delete_run. intros [= <-]. left.
    unfold field_mapping, mapping_of, deref. simpl. by simplify_map_eq.
  - rewrite restore_run. intros [= <-]. left.
    unfold field_mapping, mapping_of, deref. simpl. by simplify_map_eq.
Qed.

(** No operation of the entity removes a translation: after any
    successful sequence of translation reads and writes, soft deletes
    and restores, every language a field had is still a language of the
    field, and the field has no language twice. *)
Theorem languages_never_removed name os s s' :
  name ≠ "is_deleted" → name ≠ "deleted_at" →
  run_entity_ops os s = (Ok (), s') →
  (∀ k, k ∈ PyDict.keys (field_mapping s name) →
        k ∈ PyDict.keys (field_mapping s' name)) ∧
  (PyDict.wf (field_mapping s name) → PyDict.wf (field_mapping s' name)).
Proof.
  intros Hi Hd Hrun.
  apply (run_entity_ops_invariant
           (λ s1, (∀ k, k ∈ PyDict.keys (field_mapping s name) →
                        k ∈ PyDict.keys (field_mapping s1 name)) ∧
                  (PyDict.wf (field_mapping s name) →
                   PyDict.wf (field_mapping s1 name)))
           (λ _, True)) with (os := os) (s := s); [| |done|done].
  - intros o s1 s2 _ [Hkeys Hwf] Hstep.
    destruct (run_entity_op_mapping name _ _ _ Hi Hd Hstep)
      as [->|(lang & text & _ & ->)]; [done|]. split.
    + intros k Hk. apply PyDictFacts.elem_of_keys_setitem. right. auto.
    + intros Hs. by apply PyDictFacts.setitem_wf, Hwf.
  - by apply Forall_forall.
Qed.

Lemma languages_never_removed_example :
  let os := [OpSoftDelete 1735740000;
             OpMixin (OpSet "title_i18n" "en" (VStr "Developer"));
             OpMixin (OpSet "title_i18n" "tr" (VStr "Muhendis"));
             OpRestore] in
  (∀ k, k ∈ PyDict.keys (field_mapping entity_en_fa "title_i18n") →
        k ∈ PyDict.keys
              (field_mapping (snd (run_entity_ops os entity_en_fa))
                 "title_i18n")) ∧
  (PyDict.wf (field_mapping entity_en_fa "title_i18n") →
   PyDict.wf (field_mapping (snd (run_entity_ops os entity_en_fa))
                "title_i18n")).
Proof.
  intros os. apply (languages_never_removed "title_i18n" os entity_en_fa).
  - done.
  - done.
  - vm_compute. reflexivity.
Defined.

(** At most four languages: a field that starts without translations
    holds, after any successful sequence of operations, no language twice
    and at most the four supported ones, and [get_supported_languages]
    returns that list. *)
Theorem at_most_four_languages name os s s' :
  translatable s name → field_mapping s name = [] →
  run_ops os s = (Ok (), s') →
  ∃ ls, get_supported_languages name s' = (Ok ls, s') ∧
        NoDup ls ∧ ls ⊆ SUPPORTED_LANGUAGES ∧ (length ls ≤ 4)%nat.
Proof.
  intros Htr Hempty Hrun.
  assert (translatable s' name ∧
          PyDict.wf (field_mapping s' name) ∧
          Forall (.∈ SUPPORTED_LANGUAGES) (PyDict.keys (field_mapping s' name)))
    as (Htr' & Hwf & Hsup).
  { apply (run_ops_invariant
             (λ s1, translatable s1 name ∧
                    PyDict.wf (field_mapping s1 name) ∧
                    Forall (.∈ SUPPORTED_LANGUAGES)
                      (PyDict.keys (field_mapping s1 name))))
      with (os := os) (s := s); [| |done].
    - intros o s1 s2 (Htr1 & Hwf1 & Hsup1) Hstep. split_and!.
      + apply run_op_ok_inv in Hstep
          as [->|(g & lang & val & -> & Hset)]; [done|].
        pose proof Hset as (text & l & _ & _ & Hattrs & _)%set_translation_ok_inv.
        destruct (decide (g = name)) as [->|Hne].
        * right. exists l. by rewrite Hattrs, lookup_insert_eq.
        * unfold translatable. by rewrite Hattrs, lookup_insert_ne.
      + apply run_op_ok_inv in Hstep
          as [->|(g & lang & val & -> & Hset)]; [done|].
        by eapply set_translation_dict_wf.
      + by eapply run_op_keys_supported.
    - rewrite Hempty. split_and!; [done|constructor|constructor]. }
  rewrite get_supported_languages_run.
  assert (NoDup SUPPORTED_LANGUAGES) as Hfour.
  { apply (bool_decide_unpack _). by vm_compute. }
  assert (∀ ls : list string,
            NoDup ls → Forall (.∈ SUPPORTED_LANGUAGES) ls →
            NoDup ls ∧ ls ⊆ SUPPORTED_LANGUAGES ∧ (length ls ≤ 4)%nat) as Hbound.
  { intros ls Hnd Hall. rewrite Forall_forall in Hall.
    split_and!; [done|done|].
    change 4 with (length SUPPORTED_LANGUAGES).
    by apply submseteq_length, NoDup_submseteq. }
  unfold field_mapping in Hwf, Hsup.
  destruct Htr' as [Hn|[l Hl]].
  - rewrite Hn. exists []. split; [done|]. apply Hbound; constructor.
  - rewrite Hl in Hwf, Hsup |- *. simpl in *. eexists. split; [done|].
    by apply Hbound.
Qed.

Lemma at_most_four_languages_example :
  ∃ ls, get_supported_languages "title_i18n" entity_en_fa
        = (Ok ls, entity_en_fa) ∧
        NoDup ls ∧ ls ⊆ SUPPORTED_LANGUAGES ∧ (length ls ≤ 4)%nat.
Proof.
  apply (at_most_four_languages "title_i18n"
           [OpSet "title_i18n" "en" (VStr "Software Engineer");
            OpSet "title_i18n" "fa" (VStr "Mohandes")] new_entity).
  - left. reflexivity.
  - reflexivity.
  - vm_compute. reflexivity.
Defined.

(** The later text wins and the earlier leaves no trace: two
    [set_translation]s for one language of one field, one after the
    other, leave exactly the state the second would have left alone. *)
Theorem set_translation_overwrite s s1 s2 name lang text1 text2 :
  set_translation name lang (VStr text1) s = (Ok (), s1) →
  set_translation name lang (VStr text2) s1 = (Ok (), s2) →
  set_translation name lang (VStr text2) s = (Ok (), s2).
Proof.
  rewrite !set_translation_run.
  destruct (attrs s !! name) as [cur|] eqn:Hcur; [|done].
  destruct (list_contains lang SUPPORTED_LANGUAGES); [|done].
  destruct cur as [| | | | |l]; try done; intros [= <-]; simpl;
    rewrite lookup_insert_eq; intros [= <-]; do 2 f_equal.
  - by rewrite insert_insert_eq.
  - rewrite deref_insert_eq. simpl. rewrite decide_True by done.
    by rewrite insert_insert_eq.
  - by rewrite insert_insert_eq.
  - rewrite deref_insert_eq, setitem_setitem. by rewrite insert_insert_eq.
Qed.

Lemma set_translation_overwrite_example :
  set_translation "title_i18n" "en" (VStr "Developer") new_entity
  = (Ok (), snd (set_translation "title_i18n" "en" (VStr "Developer")
                   entity_en)).
Proof.
  apply (set_translation_overwrite new_entity entity_en _ "title_i18n" "en"
           "Software Engineer" "Developer").
  - vm_compute. reflexivity.
  - vm_compute. reflexivity.
Defined.

(** Texts for two different languages do not depend on the order in
    which they are set: after both orders the field gives the same text
    for every language (only the order of the keys, hence the last
    resort of [get_translation], may differ). *)
Theorem set_translation_commute s sa sab sb sba name lang1 lang2 text1 text2 :
  lang1 ≠ lang2 →
  set_translation name lang1 (VStr text1) s = (Ok (), sa) →
  set_translation name lang2 (VStr text2) sa = (Ok (), sab) →
  set_translation name lang2 (VStr text2) s = (Ok (), sb) →
  set_translation name lang1 (VStr text1) sb = (Ok (), sba) →
  ∀ k, PyDict.get k (field_mapping sab name)
       = PyDict.get k (field_mapping sba name).
Proof.
  intros Hne Ha Hab Hb Hba k.
  rewrite (set_translation_mapping_self _ _ _ _ _ Hab),
    (set_translation_mapping_self _ _ _ _ _ Ha),
    (set_translation_mapping_self _ _ _ _ _ Hba),
    (set_translation_mapping_self _ _ _ _ _ Hb).
  destruct (decide (k = lang1)) as [->|H1].
  { rewrite PyDictFacts.get_setitem_ne by done.
    by rewrite !PyDictFacts.get_setitem_eq. }
  destruct (decide (k = lang2)) as [->|H2].
  { rewrite PyDictFacts.get_setitem_eq.
    rewrite (PyDictFacts.get_setitem_ne lang1) by done.
    by rewrite PyDictFacts.get_setitem_eq. }
  by rewrite !PyDictFacts.get_setitem_ne by done.
Qed.

Lemma set_translation_commute_example :
  let fa_then_en :=
    snd (run_ops [OpSet "title_i18n" "fa" (VStr "Mohandes");
                  OpSet "title_i18n" "en" (VStr "Software Engineer")]
           new_entity) in
  PyDict.get "en" (field_mapping entity_en_fa "title_i18n")
  = PyDict.get "en" (field_mapping fa_then_en "title_i18n") ∧
  PyDict.get "fa" (field_mapping entity_en_fa "title_i18n")
  = PyDict.get "fa" (field_mapping fa_then_en "title_i18n").
Proof.
  assert (∀ k, PyDict.get k (field_mapping entity_en_fa "title_i18n")
               = PyDict.get k
                   (field_mapping
                      (snd (run_ops
                              [OpSet "title_i18n" "fa" (VStr "Mohandes");
                               OpSet "title_i18n" "en"
                                 (VStr "Software Engineer")] new_entity))
                      "title_i18n")) as Hall.
  { apply (set_translation_commute new_entity entity_en entity_en_fa
             (snd (set_translation "title_i18n" "fa" (VStr "Mohandes")
                     new_entity))
             _ "title_i18n" "en" "fa" "Software Engineer" "Mohandes").
    - done.
    - vm_compute. reflexivity.
    - vm_compute. reflexivity.
    - vm_compute. reflexivity.
    - vm_compute. reflexivity. }
  split; apply Hall.
Defined.

(** What [get_supported_languages] returns after a [set_translation]: the
    list it returned before when the language was in it, and that list
    with the language added at its end when it was not. *)
Theorem get_supported_languages_after_set s s' name lang val :
  set_translation name lang val s = (Ok (), s') →
  ∃ before,
    fst (get_supported_languages name s) = Ok before ∧
    get_supported_languages name s'
    = (Ok (if bool_decide (lang ∈ before) then before
           else (before ++ [lang])%list), s').
Proof.
  intros Hset.
  pose proof Hset as (text & l & -> & _ & Hattrs & Hheap)%set_translation_ok_inv.
  pose proof (set_translation_mapping_self _ _ _ _ _ Hset) as Hmap.
  exists (PyDict.keys (field_mapping s name)). split.
  - rewrite get_supported_languages_run. unfold field_mapping.
    by destruct Hheap as [(-> & _)|(-> & _)].
  - rewrite get_supported_languages_run, Hattrs, lookup_insert_eq.
    assert (deref s' l = field_mapping s' name) as ->.
    { unfold field_mapping. by rewrite Hattrs, lookup_insert_eq. }
    rewrite Hmap, PyDictFacts.keys_setitem. do 2 f_equal.
    destruct (PyDict.contains lang (field_mapping s name)) eqn:Hc.
    + apply PyDictFacts.contains_true in Hc. by rewrite bool_decide_true.
    + apply PyDictFacts.contains_false in Hc. by rewrite bool_decide_false.
Qed.

Lemma get_supported_languages_after_set_example :
  ∃ before,
    fst (get_supported_languages "title_i18n" entity_en) = Ok before ∧
    get_supported_languages "title_i18n" entity_en_fa
    = (Ok (if bool_decide ("fa" ∈ before) then before
           else (before ++ ["fa"])%list), entity_en_fa).
Proof.
  apply (get_supported_languages_after_set entity_en entity_en_fa
           "title_i18n" "fa" (VStr "Mohandes")).
  vm_compute. reflexivity.
Defined.

(** Attributes that are no translation columns: on an attribute that
    holds a string, a number, a flag or an instant, [get_translation]
    returns no text and raises no [ValueError]; it answers [None] when the
    value is falsy and raises [TypeError] or [AttributeError] when it is
    not.  [set_translation] of a text for a supported language raises
    [TypeError] on such an attribute and writes nothing. *)
Theorem scalar_attribute_behaviour s name lang fallback v :
  attrs s !! name = Some v → v ≠ VNone → (∀ l, v ≠ VDict l) →
  let r := fst (get_translation name lang fallback s) in
  (r = Ok None ∨ r = Raise TypeError ∨ r = Raise AttributeError) ∧
  (r = Ok None ↔ fst (truthy v s) = Ok false) ∧
  (∀ text, lang ∈ SUPPORTED_LANGUAGES →
           set_translation name lang (VStr text) s = (Raise TypeError, s)).
Proof.
  intros Hv Hnone Hdict. simpl.
  rewrite (get_translation_run_scalar _ _ _ _ _ Hv Hnone Hdict). simpl.
  split_and!.
  - destruct v as [|t|n|b|t|l]; simpl; repeat case_decide;
      repeat case_match; auto.
  - destruct v as [|t|n|b|t|l]; simpl; try done.
    + case_decide as Ht.
      * by rewrite bool_decide_true.
      * rewrite bool_decide_false by done. simpl.
        repeat case_match; split; done.
    + case_decide as Hn.
      * by rewrite bool_decide_true.
      * rewrite bool_decide_false by done. simpl. split; done.
    + destruct b; split; done.
    + by edestruct Hdict.
  - intros text Hlang%supported_iff.
    rewrite set_translation_run, Hv, Hlang.
    destruct v; try done. by edestruct Hdict.
Qed.

Lemma scalar_attribute_behaviour_example :
  let r := fst (get_translation "id" "en" "en" new_entity) in
  (r = Ok None ∨ r = Raise TypeError ∨ r = Raise AttributeError) ∧
  (r = Ok None
   ↔ fst (truthy (VStr "6fa459ea-ee8a-3ca4-894e-db77e160355e") new_entity)
     = Ok false) ∧
  (∀ text, "en" ∈ SUPPORTED_LANGUAGES →
           set_translation "id" "en" (VStr text) new_entity
           = (Raise TypeError, new_entity)).
Proof.
  apply (scalar_attribute_behaviour new_entity "id" "en" "en").
  - reflexivity.
  - done.
  - done.
Defined.

End MixinMore.
